(** * STLessCoro: a shallow embedding of the coroutine runtime

    The development models the two headers of the repository:
    - [coroutines/result.hpp]: the [Result] helper reading a type-erased
      [std::shared_ptr<void>] through [std::static_pointer_cast];
    - the single-header runtime ([Result], [Task], [Task::Promise],
      [Task::Awaiter], [Scheduler]).

    Coroutine frames live in a heap indexed by addresses; a
    [std::coroutine_handle] is an optional address ([None] is [nullptr]).
    The frames are shared: the scheduler, the awaiter of a parent and the
    links [m_next] and [m_previous] all refer to them by address. The body of
    a coroutine is an input of the runtime; it is given by its suspension
    points ([coro]). Undefined behaviour of the C++ program (resuming a null
    or finished handle, dereferencing a null pointer) is the [None] outcome
    of the option monad.

    The first part holds the definitions, the second the properties: the
    completion cell, awaiting and finishing, ownership of frames, the
    invariant of the scheduler with termination of [resume], and the
    scenarios. *)

From stdpp Require Import base option list gmap fin_maps.
From Stdlib Require Import ZArith Lia.

Local Open Scope Z_scope.
Local Open Scope nat_scope.

(** ** Values and type-erased storage *)

(** The C++ types a coroutine may hand to [co_return]. Values are only
    stored and copied by the runtime, never computed with. *)
Inductive ctype : Type :=
| Tint
| Tbool
| Tchar
| Tvoidptr
| Tpair (A B : ctype)
| Tvector (A : ctype).

Global Instance ctype_eq_dec : EqDecision ctype.
Proof. solve_decision. Defined.

Fixpoint denote (T : ctype) : Type :=
  match T with
  | Tint => Z
  | Tbool => bool
  | Tchar => N
  | Tvoidptr => option nat
  | Tpair A B => (denote A * denote B)%type
  | Tvector A => list (denote A)
  end.

(** An object in storage: its dynamic type and its value. The runtime keeps
    no tag; the tag exists only in the model, to tell a matching read from a
    mismatched one. *)
Record object : Type := Object { dyn_type : ctype; dyn_value : denote dyn_type }.

(** Pointers. The static pointee type ([None] for [void]) is a phantom: a cast
    changes it and keeps the pointee. The pointee of a shared pointer is never
    written after [std::make_shared], so each holder's view of it is the
    object itself; [None] is the null pointer. *)
Record shared_ptr (T : option ctype) : Type := SharedPtr { sp_pointee : option object }.
Record raw_ptr (T : option ctype) : Type := RawPtr { rp_pointee : option object }.
Arguments SharedPtr {T} _.
Arguments sp_pointee {T} _.
Arguments RawPtr {T} _.
Arguments rp_pointee {T} _.

Definition void : option ctype := None.

Definition null_shared {T} : shared_ptr T := SharedPtr None.

(** [std::make_shared<T>(value)], converted to [std::shared_ptr<void>] by the
    assignment to [m_data]. *)
Definition make_shared (T : ctype) (value : denote T) : shared_ptr void :=
  SharedPtr (Some (Object T value)).

(** [p.reset()] *)
Definition reset {T} (p : shared_ptr T) : shared_ptr T := null_shared.

(** [p.get()] *)
Definition get {T} (p : shared_ptr T) : raw_ptr T := RawPtr (sp_pointee p).

(** [std::static_pointer_cast<T>(p)] *)
Definition static_pointer_cast (T : ctype) (p : shared_ptr void) : shared_ptr (Some T) :=
  SharedPtr (sp_pointee p).

(** [(T * ) p] on a raw [void *] *)
Definition pointer_cast (T : ctype) (p : raw_ptr void) : raw_ptr (Some T) :=
  RawPtr (rp_pointee p).

(** Reading an object as a [T]. The model gives the read a value when the
    dynamic type of the object is [T], the only reads the properties below
    make; it gives none to a read at another type, where the program
    reinterprets the storage. *)
Definition read_as (T : ctype) (o : object) : option (denote T) :=
  match decide (dyn_type o = T) with
  | left e => Some (eq_rect (dyn_type o) denote (dyn_value o) T e)
  | right _ => None
  end.

(** [*p] for [p : T *]: undefined on the null pointer; on an object, the
    read of [read_as]. *)
Definition deref {T : ctype} (p : raw_ptr (Some T)) : option (denote T) :=
  o ← rp_pointee p; read_as T o.

(** [(T) x] for [x : T]: the identity conversion. *)
Definition value_cast (T : ctype) (x : denote T) : denote T := x.

(** ** [Result] *)

(** [class Result], the same data in both headers: one [std::shared_ptr<void>]. *)
Record Result : Type := MkResult { r_data : shared_ptr void }.

(** [Result(std::shared_ptr<void> &data)]: copies the pointer. *)
Definition Result_ctor (data : shared_ptr void) : Result := MkResult data.

(** [~Result()] *)
Definition Result_dtor (r : Result) : Result := MkResult (reset (r_data r)).

(** [Result::result<T>] of the runtime header:
    [return (T) *((T * ) m_data.get());] *)
Definition result (T : ctype) (r : Result) : option (denote T) :=
  value_cast T <$> deref (pointer_cast T (get (r_data r))).

Module result_hpp.

(** [Result::result<T>] of [coroutines/result.hpp]:
    [return *std::static_pointer_cast<T>(m_data).get();] *)
Definition result (T : ctype) (r : Result) : option (denote T) :=
  deref (get (static_pointer_cast T (r_data r))).

End result_hpp.

(** ** Coroutine frames *)

(** [std::coroutine_handle<Promise>]: the address of a frame, or [nullptr]. *)
Abbreviation PromiseHandle := (option nat).

(** [struct Task::Promise]. [m_done] is the two-bit field, holding 0 or 1. *)
Record Promise : Type := MkPromise {
  m_done : Z;
  m_data : shared_ptr void;
  m_next : PromiseHandle;
  m_previous : PromiseHandle
}.

(** [class Task]: the owning wrapper, one handle. *)
Record Task : Type := MkTask { m_handle : PromiseHandle }.

(** The body of a coroutine, as the sequence of its suspension points; the
    code between them is the host function building the rest of the body.
    - [co_yield_ k]: [co_yield nullptr;] then [k];
    - [co_await_ child k]: [Result r = co_await child();] then [k r];
    - [co_return_ T v]: [co_return v;] with [v] of type [T];
    - [co_undefined]: the body runs into undefined behaviour (for example
      after [result<T>] failed on the awaited [Result]). *)
Inductive coro : Type :=
| co_yield_ (k : coro)
| co_await_ (child : coro) (k : Result -> coro)
| co_return_ (T : ctype) (v : denote T)
| co_undefined.

(** Where a suspended frame continues when resumed. [Awaiting] keeps the
    temporary [Task] of the await expression, which the [Awaiter] refers to. *)
Inductive resume_point : Type :=
| Suspended (c : coro)
| Awaiting (awaited : Task) (k : Result -> coro)
| Finished.

Record Frame : Type := MkFrame { promise : Promise; point : resume_point }.

(** ** [Task::Promise] *)

(** [Promise() noexcept {}]: the pointer and the handles are null; the bit
    field is left as it is and set by [get_return_object]. *)
Definition Promise_ctor : Promise :=
  {| m_done := 0; m_data := null_shared; m_next := None; m_previous := None |}.

(** [get_return_object]: [self] is [PromiseHandle::from_promise( *this)]. *)
Definition get_return_object (self : nat) (p : Promise) : Promise * Task :=
  ({| m_done := 0; m_data := m_data p; m_next := m_next p; m_previous := m_previous p |},
   MkTask (Some self)).

(** [initial_suspend], [yield_value] and [final_suspend] all return
    [std::suspend_always]: the frame stops at each of them. The functions
    below are what they do to the promise before. *)

Definition yield_value (self : nat) (p : Promise) : Promise :=
  {| m_done := m_done p; m_data := m_data p; m_next := Some self; m_previous := m_previous p |}.

Definition return_value (T : ctype) (value : denote T) (p : Promise) : Promise :=
  {| m_done := m_done p; m_data := make_shared T value;
     m_next := m_next p; m_previous := m_previous p |}.

Definition final_suspend (p : Promise) : Promise :=
  {| m_done := 1; m_data := m_data p; m_next := m_previous p; m_previous := m_previous p |}.

(** [~Promise()], which [Scheduler::resume] calls by hand on a frame it
    keeps: the body of the destructor runs, the storage of the frame stays,
    and later reads of the promise see the fields as reset here. *)
Definition Promise_dtor (p : Promise) : Promise :=
  {| m_done := m_done p; m_data := reset (m_data p); m_next := None; m_previous := None |}.

(** ** The heap of frames *)

Definition set_promise (f : Frame) (p : Promise) : Frame :=
  {| promise := p; point := point f |}.

(** Calling a coroutine function: a frame is allocated at an unused address,
    the promise is constructed, the return object is taken and the frame
    stops at [initial_suspend] ([std::suspend_always]); no statement of the
    body has run. *)
Definition call (c : coro) (σ : gmap nat Frame) : Task * gmap nat Frame :=
  let a := fresh (dom σ) in
  let '(p, task) := get_return_object a Promise_ctor in
  (task, <[a := MkFrame p (Suspended c)]> σ).

(** [handle.destroy()]: the frame is released; nothing of the body runs. *)
Definition destroy (h : PromiseHandle) (σ : gmap nat Frame) : option (gmap nat Frame) :=
  a ← h; _ ← σ !! a; Some (delete a σ).

(** [~Task()] *)
Definition Task_dtor (t : Task) (σ : gmap nat Frame) : option (Task * gmap nat Frame) :=
  σ' ← match m_handle t with
       | Some _ => destroy (m_handle t) σ
       | None => Some σ
       end;
  Some (MkTask None, σ').

(** ** [Task::Awaiter] *)

(** The awaiter holds a reference to the [m_handle] of the awaited [Task];
    the functions below take that [Task]. *)
Definition await_ready (t : Task) : bool := false.

(** [await_suspend(parent)] *)
Definition await_suspend (t : Task) (parent : PromiseHandle) (σ : gmap nat Frame)
  : option (gmap nat Frame) :=
  p ← parent;
  fp ← σ !! p;
  let pp := promise fp in
  let σ1 := <[p := set_promise fp {| m_done := m_done pp; m_data := m_data pp;
                                     m_next := m_handle t; m_previous := m_previous pp |}]> σ in
  c ← m_handle t;
  fc ← σ1 !! c;
  let pc := promise fc in
  Some (<[c := set_promise fc {| m_done := m_done pc; m_data := m_data pc;
                                 m_next := m_next pc; m_previous := parent |}]> σ1).

(** [await_resume()] *)
Definition await_resume (t : Task) (σ : gmap nat Frame) : option Result :=
  c ← m_handle t;
  fc ← σ !! c;
  Some (Result_ctor (m_data (promise fc))).

(** [~Awaiter()]: writes [nullptr] through the reference. *)
Definition Awaiter_dtor (t : Task) : Task := MkTask None.

(** ** Running a frame *)

(** The frame at [a] executes [c] up to its next suspension point. At an
    await the protocol of the language applies: [await_ready] is asked, and
    only when it answers false [await_suspend] runs and the frame stops;
    [await_resume] and the destructors of the temporaries run when the frame
    goes on. [yield_value] and [final_suspend] return [std::suspend_always],
    so the frame stops there. *)
Fixpoint run (a : nat) (c : coro) (σ : gmap nat Frame) : option (gmap nat Frame) :=
  match c with
  | co_yield_ k =>
      f ← σ !! a;
      Some (<[a := MkFrame (yield_value a (promise f)) (Suspended k)]> σ)
  | co_await_ child k =>
      let '(t, σ1) := call child σ in
      if await_ready t then
        r ← await_resume t σ1;
        '(_, σ2) ← Task_dtor (Awaiter_dtor t) σ1;
        run a (k r) σ2
      else
        σ2 ← await_suspend t (Some a) σ1;
        f ← σ2 !! a;
        Some (<[a := MkFrame (promise f) (Awaiting t k)]> σ2)
  | co_return_ T v =>
      f ← σ !! a;
      Some (<[a := MkFrame (final_suspend (return_value T v (promise f))) Finished]> σ)
  | co_undefined => None
  end.

(** [handle.resume()]: undefined on a null handle, on a released frame and on
    a frame stopped at its final suspension. *)
Definition handle_resume (h : PromiseHandle) (σ : gmap nat Frame) : option (gmap nat Frame) :=
  a ← h;
  f ← σ !! a;
  match point f with
  | Suspended c => run a c σ
  | Awaiting t k =>
      r ← await_resume t σ;
      '(_, σ1) ← Task_dtor (Awaiter_dtor t) σ;
      run a (k r) σ1
  | Finished => None
  end.

(** ** [Scheduler] *)

(** [m_size] is a [size_t]; it equals the length of the vector, which stays
    far below the range of the type, so the counter is a natural number. *)
Record Scheduler : Type := MkScheduler {
  m_coroutines : list PromiseHandle;
  m_size : nat
}.

Definition Scheduler_ctor : Scheduler := MkScheduler [] 0.

(** The state of the program: the scheduler and the frames. *)
Abbreviation state := (Scheduler * gmap nat Frame)%type.

(** [schedule(task)]: both overloads have the same body. *)
Definition schedule (task : Task) (s : Scheduler) : Task * Scheduler :=
  (MkTask None,
   MkScheduler (m_coroutines s ++ [m_handle task]) (S (m_size s))).

(** One iteration of the loop of [resume], at index [i]. *)
Definition visit (i : nat) (st : state) : option state :=
  let '(s, σ) := st in
  handle ← m_coroutines s !! i;
  σ1 ← handle_resume handle σ;
  a ← handle;
  f ← σ1 !! a;
  match m_next (promise f) with
  | Some n =>
      let s' := MkScheduler (<[i := Some n]> (m_coroutines s)) (m_size s) in
      if bool_decide (m_done (promise f) ≠ 0%Z)
      then Some (s', <[a := set_promise f (Promise_dtor (promise f))]> σ1)
      else Some (s', σ1)
  | None =>
      let σ2 := <[a := set_promise f (Promise_dtor (promise f))]> σ1 in
      back ← last (m_coroutines s);
      Some (MkScheduler (removelast (<[i := back]> (m_coroutines s))) (pred (m_size s)), σ2)
  end.

(** The loop [for (size_t i = 0; i < m_size; ++i)]. The guard reads the
    current [m_size]. [fuel] bounds the number of iterations; [m_size - i]
    is enough, see [resume_loop_guard]. The result carries the final index. *)
Fixpoint resume_loop (fuel : nat) (i : nat) (st : state) : option (nat * state) :=
  match fuel with
  | O => Some (i, st)
  | S fuel' =>
      if bool_decide (i < m_size (fst st))
      then st' ← visit i st; resume_loop fuel' (S i) st'
      else Some (i, st)
  end.

(** [Scheduler::resume()] *)
Definition resume (st : state) : option (bool * state) :=
  '(_, st') ← resume_loop (m_size (fst st)) 0 st;
  Some (bool_decide (m_size (fst st') = 0), st').

(** Creating a task from a body and handing it to the scheduler, as in
    [scheduler.schedule(body())]. *)
Definition submit (c : coro) (st : state) : state :=
  let '(s, σ) := st in
  let '(task, σ1) := call c σ in
  let '(_, s1) := schedule task s in
  (s1, σ1).

Definition initial_state : state := (Scheduler_ctor, ∅).

(** [n] calls of [resume] in a row; the answers are dropped. *)
Fixpoint ticks (n : nat) (st : state) : option state :=
  match n with
  | O => Some st
  | S n' => '(_, st') ← resume st; ticks n' st'
  end.

(** [n] calls of [handle.resume()] on the same handle. *)
Fixpoint resumptions (n : nat) (h : PromiseHandle) (σ : gmap nat Frame)
  : option (gmap nat Frame) :=
  match n with
  | O => Some σ
  | S n' => σ' ← handle_resume h σ; resumptions n' h σ'
  end.

(** ** Bodies used by the scenarios *)

(** [n] pauses in sequence, then [co_return v]. *)
Fixpoint pauses (n : nat) (T : ctype) (v : denote T) : coro :=
  match n with
  | O => co_return_ T v
  | S n' => co_yield_ (pauses n' T v)
  end.

(** A root that awaits a child returning [v] and goes on with [k]. *)
Definition awaits_child (T : ctype) (v : denote T) (k : Result -> coro) : coro :=
  co_await_ (co_return_ T v) k.

(** The parent that reads the awaited [Result] as a [T] and returns what it
    read; the read is undefined on an empty [Result]. *)
Definition read_and_return (T : ctype) (r : Result) : coro :=
  match result T r with
  | Some x => co_return_ T x
  | None => co_undefined
  end.

(** Submitting the bodies of a list, first to last. *)
Definition submit_all (cs : list coro) (st : state) : state :=
  foldl (λ st c, submit c st) st cs.

(** The [Result] read from a frame whose data pointer is null. *)
Definition empty_result : Result := Result_ctor null_shared.

(** A body is well defined when it does not run into undefined behaviour,
    whatever [Result] its awaits hand over. *)
Fixpoint well_defined (c : coro) : Prop :=
  match c with
  | co_yield_ k => well_defined k
  | co_await_ child k => well_defined child ∧ ∀ r, well_defined (k r)
  | co_return_ _ _ => True
  | co_undefined => False
  end.

(** ** Definitions for the invariant of the scheduler *)

(** The body a suspended frame runs when it is resumed: at an await point it
    is the continuation applied to what [await_resume] returns. *)
Definition next_body (σ : gmap nat Frame) (f : Frame) : option coro :=
  match point f with
  | Suspended c => Some c
  | Awaiting t k => r ← await_resume t σ; Some (k r)
  | Finished => None
  end.

(** The number of resumptions a body still needs, an await counted with its
    child; the continuation of an await is taken at the empty [Result]. *)
Fixpoint steps (c : coro) : nat :=
  match c with
  | co_yield_ k => S (steps k)
  | co_await_ child k => S (steps child + steps (k empty_result))
  | co_return_ _ _ => 1
  | co_undefined => 1
  end.

(** What a slot of the vector stands for: the frame to resume, the body it
    will run, and the frames waiting above it with their continuations. *)
Record slot : Type := MkSlot {
  s_front : nat;
  s_body : coro;
  s_stack : list (nat * (Result → coro))
}.

(** The frame at [a] is resumable, has parent link [prev] and runs [c] when
    resumed: it stopped before [c], or at an await whose child has finished
    and was finalized. *)
Definition frontier (σ : gmap nat Frame) (a : nat) (c : coro) (prev : PromiseHandle) : Prop :=
  ∃ f, σ !! a = Some f
     ∧ m_previous (promise f) = prev
     ∧ m_done (promise f) = 0%Z
     ∧ (point f = Suspended c
        ∨ ∃ d fd k, point f = Awaiting (MkTask (Some d)) k
                  ∧ σ !! d = Some fd ∧ point fd = Finished
                  ∧ m_data (promise fd) = null_shared
                  ∧ c = k empty_result).

(** The frames above [child], following [m_previous]: each waits at an await
    of the frame below it. *)
Fixpoint chain (σ : gmap nat Frame) (child : nat) (prev : PromiseHandle)
    (ks : list (nat * (Result → coro))) : Prop :=
  match ks with
  | [] => prev = None
  | pk :: ks' =>
      prev = Some pk.1
      ∧ ∃ f, σ !! pk.1 = Some f
           ∧ point f = Awaiting (MkTask (Some child)) pk.2
           ∧ m_done (promise f) = 0%Z
           ∧ chain σ pk.1 (m_previous (promise f)) ks'
  end.

Definition slot_ok (σ : gmap nat Frame) (d : slot) : Prop :=
  ∃ prev, frontier σ (s_front d) (s_body d) prev
        ∧ chain σ (s_front d) prev (s_stack d)
        ∧ well_defined (s_body d)
        ∧ Forall (λ pk, ∀ r, well_defined (pk.2 r)) (s_stack d).

Definition footprint (d : slot) : list nat := s_front d :: (s_stack d).*1.

Definition weight (d : slot) : nat :=
  steps (s_body d) + sum_list_with (λ pk, steps (pk.2 empty_result)) (s_stack d).

(** The slots of freshly submitted roots. *)
Definition roots (addrs : list nat) (cs : list coro) : list slot :=
  zip_with (λ a c, MkSlot a c []) addrs cs.

(** The slots [ds] describe the state: the vector lists their frontier
    frames, [m_size] is its length, every slot has a well-formed chain and
    the chains are pairwise disjoint. *)
Definition described (st : state) (ds : list slot) : Prop :=
  m_coroutines st.1 = (λ d, Some (s_front d)) <$> ds
  ∧ m_size st.1 = length ds
  ∧ Forall (slot_ok st.2) ds
  ∧ NoDup (ds ≫= footprint).

(** The invariant, with the total number [M] of resumptions still needed. *)
Definition inv (st : state) (M : nat) : Prop :=
  ∃ ds, described st ds ∧ M = sum_list_with weight ds.

(** What one resumption does to a slot, [None] when the root has finished
    and the slot goes away; [b] is the address of the frame a new await
    creates. *)
Definition slot_step (b : nat) (d : slot) : option slot :=
  match s_body d with
  | co_yield_ k => Some (MkSlot (s_front d) k (s_stack d))
  | co_await_ child k => Some (MkSlot b child ((s_front d, k) :: s_stack d))
  | co_return_ _ _ =>
      match s_stack d with
      | [] => None
      | pk :: stack => Some (MkSlot pk.1 (pk.2 empty_result) stack)
      end
  | co_undefined => None
  end.

(** The slots after the visit of index [i]. *)
Definition slots_after (i : nat) (b : nat) (ds : list slot) : list slot :=
  match ds !! i with
  | Some d =>
      match slot_step b d with
      | Some d' => <[i := d']> ds
      | None =>
          match last ds with
          | Some dl => removelast (<[i := dl]> ds)
          | None => ds
          end
      end
  | None => ds
  end.

(** [σ'] has the frames of [σ], except possibly the one at [a]. *)
Definition agrees (σ σ' : gmap nat Frame) (a : nat) : Prop :=
  ∀ x, x ≠ a → is_Some (σ !! x) → σ' !! x = σ !! x.

(** A slot whose frame pauses at its next resumption, and the slot after
    that pause. *)
Definition pausing (d : slot) : Prop := ∃ k, s_body d = co_yield_ k.

Definition after_pause (d : slot) : slot :=
  match s_body d with
  | co_yield_ k => MkSlot (s_front d) k (s_stack d)
  | _ => d
  end.

(** A slot whose frame is a root that returns at its next resumption. *)
Definition returning_root (d : slot) : Prop :=
  (∃ T v, s_body d = co_return_ T v) ∧ s_stack d = [].

(** ** Definitions for the further properties *)

(** The flag [m_done] of a frame tells whether the frame stands at its
    final suspension. *)
Definition flag_ok (f : Frame) : Prop :=
  (m_done (promise f) = 1%Z ∧ point f = Finished)
  ∨ (m_done (promise f) = 0%Z ∧ point f ≠ Finished).

Definition flags_ok (σ : gmap nat Frame) : Prop :=
  ∀ a f, σ !! a = Some f → flag_ok f.

(** * Properties *)

Arguments handle_resume : simpl never.
Arguments visit : simpl never.
Arguments resume : simpl never.

(** ** The completion cell *)

Lemma read_as_same (T : ctype) (v : denote T) : read_as T (Object T v) = Some v.
Proof.
  unfold read_as; simpl.
  destruct (decide (T = T)) as [e | ne]; [| congruence].
  assert (e = eq_refl) as -> by apply proof_irrel.
  reflexivity.
Qed.

Lemma result_make_shared (T : ctype) (v : denote T) :
  result T (Result_ctor (make_shared T v)) = Some v.
Proof. unfold result, deref; simpl. rewrite read_as_same. reflexivity. Qed.

Lemma result_empty (T : ctype) : result T empty_result = None.
Proof. reflexivity. Qed.

Lemma result_hpp_agrees (T : ctype) (r : Result) : result_hpp.result T r = result T r.
Proof.
  unfold result_hpp.result, result, static_pointer_cast, pointer_cast, get, deref; simpl.
  destruct (sp_pointee (r_data r)) as [o |]; simpl; [| reflexivity].
  destruct (read_as T o); reflexivity.
Qed.

(** C4: a frame that finishes with [co_return v], [v] of type [T], leaves a
    completion cell whose read at [T] is exactly [v], with either version of
    [Result::result]. *)
Theorem finish_then_read (a : nat) (f : Frame) (σ : gmap nat Frame)
    (T : ctype) (v : denote T) :
  σ !! a = Some f →
  ∃ σ' r, run a (co_return_ T v) σ = Some σ'
        ∧ await_resume (MkTask (Some a)) σ' = Some r
        ∧ r = Result_ctor (m_data (final_suspend (return_value T v (promise f))))
        ∧ result T r = Some v
        ∧ result_hpp.result T r = Some v.
Proof.
  intros Hf. eexists _, _. simpl. rewrite Hf. simpl.
  split; [reflexivity |].
  unfold await_resume; simpl. rewrite lookup_insert_eq; simpl.
  split; [reflexivity |]. split; [reflexivity |].
  rewrite result_hpp_agrees. split; apply result_make_shared.
Qed.

Lemma finish_then_read_witness :
  ∃ σ' r, run 0 (co_return_ Tint 42%Z) (snd (call co_undefined ∅)) = Some σ'
        ∧ await_resume (MkTask (Some 0)) σ' = Some r
        ∧ r = Result_ctor (m_data (final_suspend (return_value Tint 42%Z
                (promise (MkFrame (fst (get_return_object 0 Promise_ctor))
                                  (Suspended co_undefined))))))
        ∧ result Tint r = Some 42%Z
        ∧ result_hpp.result Tint r = Some 42%Z.
Proof.
  apply (finish_then_read 0
           (MkFrame (fst (get_return_object 0 Promise_ctor)) (Suspended co_undefined))).
  vm_compute. reflexivity.
Defined.

(** C10: the two versions of [Result::result<T>] return the same value on
    every [Result] and every [T]; on the pointer stored by the finishing
    operation with a [T] both return the stored value. *)
Theorem result_versions_agree (T : ctype) :
  (∀ r : Result, result_hpp.result T r = result T r)
  ∧ (∀ (v : denote T) (p : Promise),
       let r := Result_ctor (m_data (return_value T v p)) in
       result_hpp.result T r = Some v ∧ result T r = Some v).
Proof.
  split; [apply result_hpp_agrees |].
  intros v p r. subst r. rewrite result_hpp_agrees. simpl.
  split; apply result_make_shared.
Qed.

(** ** Awaiting and finishing *)

Lemma handle_resume_next_body (σ : gmap nat Frame) (a : nat) (f : Frame) (c : coro) :
  σ !! a = Some f → next_body σ f = Some c → handle_resume (Some a) σ = run a c σ.
Proof.
  intros Hf Hc. unfold handle_resume, next_body in *; simpl. rewrite Hf; simpl.
  destruct (point f) as [c' | t k |]; simplify_eq; [reflexivity |].
  destruct (await_resume t σ) as [r |]; simpl in *; simplify_eq. reflexivity.
Qed.

Lemma fresh_lookup (σ : gmap nat Frame) : σ !! fresh (dom σ) = None.
Proof. apply not_elem_of_dom, is_fresh. Qed.

Lemma fresh_ne (σ : gmap nat Frame) (a : nat) (f : Frame) :
  σ !! a = Some f → a ≠ fresh (dom σ).
Proof. intros Hf ->. rewrite fresh_lookup in Hf. discriminate. Qed.

Lemma run_await (a : nat) (f : Frame) (σ : gmap nat Frame) (child : coro) (k : Result → coro) :
  σ !! a = Some f →
  let c := fresh (dom σ) in
  let pa := {| m_done := m_done (promise f); m_data := m_data (promise f);
               m_next := Some c; m_previous := m_previous (promise f) |} in
  let pc := {| m_done := 0; m_data := null_shared; m_next := None; m_previous := Some a |} in
  run a (co_await_ child k) σ
  = Some (<[a := MkFrame pa (Awaiting (MkTask (Some c)) k)]>
            (<[c := MkFrame pc (Suspended child)]> σ)).
Proof.
  intros Hf c pa pc. pose proof (fresh_ne _ _ _ Hf) as Hne. fold c in Hne.
  simpl. fold c. unfold await_suspend; simpl.
  rewrite lookup_insert_ne by done. rewrite Hf; simpl.
  rewrite lookup_insert_ne by done. rewrite lookup_insert_eq; simpl.
  rewrite lookup_insert_ne by done. rewrite lookup_insert_eq; simpl.
  f_equal. unfold set_promise; simpl.
  apply map_eq; intros x. rewrite !lookup_insert.
  repeat case_decide; subst; done.
Qed.

(** C5: [await_ready] answers false for every awaited task; [await_suspend]
    sets the parent's [m_next] to the child and the child's [m_previous] to
    the parent; so a frame reaching an await of a child always stops there,
    linked to a child that has not started. *)
Theorem await_suspends_and_links :
  (∀ t : Task, await_ready t = false)
  ∧ (∀ (t : Task) (p c : nat) (fp fc : Frame) (σ : gmap nat Frame),
       m_handle t = Some c → σ !! p = Some fp → σ !! c = Some fc →
       ∃ σ' fp' fc', await_suspend t (Some p) σ = Some σ'
                   ∧ σ' !! p = Some fp' ∧ m_next (promise fp') = Some c
                   ∧ σ' !! c = Some fc' ∧ m_previous (promise fc') = Some p)
  ∧ (∀ (a : nat) (f : Frame) (σ : gmap nat Frame) (child : coro) (k : Result → coro),
       σ !! a = Some f →
       ∃ σ' c fa fc, run a (co_await_ child k) σ = Some σ'
                   ∧ σ' !! a = Some fa ∧ point fa = Awaiting (MkTask (Some c)) k
                   ∧ m_next (promise fa) = Some c
                   ∧ σ' !! c = Some fc ∧ point fc = Suspended child
                   ∧ m_previous (promise fc) = Some a).
Proof.
  split; [reflexivity |]. split.
  - intros t p c fp fc σ Ht Hp Hc. unfold await_suspend; simpl.
    rewrite Hp, Ht; simpl.
    destruct (decide (p = c)) as [-> | Hne].
    + rewrite lookup_insert_eq; simpl. eexists _, _, _.
      split; [reflexivity |]. rewrite lookup_insert_eq. simpl. done.
    + rewrite lookup_insert_ne by done. rewrite Hc; simpl. eexists _, _, _.
      split; [reflexivity |].
      rewrite lookup_insert_ne by done. rewrite lookup_insert_eq.
      split; [reflexivity |]. split; [reflexivity |].
      rewrite lookup_insert_eq. done.
  - intros a f σ child k Hf. pose proof (fresh_ne _ _ _ Hf) as Hne.
    eexists _, _, _, _. split; [apply (run_await a f); exact Hf |].
    rewrite lookup_insert_eq. split; [reflexivity |]. split; [reflexivity |].
    split; [reflexivity |].
    rewrite lookup_insert_ne by done. rewrite lookup_insert_eq. done.
Qed.

Lemma await_suspends_and_links_witness :
  ∃ σ' c fa fc,
    run 0 (co_await_ (co_return_ Tint 42%Z) (read_and_return Tint))
        (snd (call co_undefined ∅)) = Some σ'
    ∧ σ' !! 0 = Some fa
    ∧ point fa = Awaiting (MkTask (Some c)) (read_and_return Tint)
    ∧ m_next (promise fa) = Some c
    ∧ σ' !! c = Some fc ∧ point fc = Suspended (co_return_ Tint 42%Z)
    ∧ m_previous (promise fc) = Some 0.
Proof.
  apply (proj2 (proj2 await_suspends_and_links) 0
           (MkFrame (fst (get_return_object 0 Promise_ctor)) (Suspended co_undefined))).
  vm_compute. reflexivity.
Defined.

Lemma run_return (a : nat) (f : Frame) (σ : gmap nat Frame) (T : ctype) (v : denote T) :
  σ !! a = Some f →
  run a (co_return_ T v) σ
  = Some (<[a := MkFrame {| m_done := 1; m_data := make_shared T v;
                            m_next := m_previous (promise f);
                            m_previous := m_previous (promise f) |} Finished]> σ).
Proof. intros Hf. simpl. rewrite Hf. reflexivity. Qed.

Lemma run_yield (a : nat) (f : Frame) (σ : gmap nat Frame) (k : coro) :
  σ !! a = Some f →
  run a (co_yield_ k) σ
  = Some (<[a := MkFrame {| m_done := m_done (promise f); m_data := m_data (promise f);
                            m_next := Some a;
                            m_previous := m_previous (promise f) |} (Suspended k)]> σ).
Proof. intros Hf. simpl. rewrite Hf. reflexivity. Qed.

Lemma last_lookup_Some {A} (l : list A) (i : nat) (x : A) :
  l !! i = Some x → ∃ y, last l = Some y.
Proof.
  intros Hi. destruct (last l) as [y |] eqn:Hl; [eauto |].
  apply last_None in Hl. subst. discriminate.
Qed.

Lemma visit_eq (i : nat) (s : Scheduler) (σ σ1 : gmap nat Frame) (a : nat) (f : Frame) :
  m_coroutines s !! i = Some (Some a) →
  handle_resume (Some a) σ = Some σ1 →
  σ1 !! a = Some f →
  visit i (s, σ)
  = match m_next (promise f) with
    | Some n =>
        let s' := MkScheduler (<[i := Some n]> (m_coroutines s)) (m_size s) in
        if bool_decide (m_done (promise f) ≠ 0%Z)
        then Some (s', <[a := set_promise f (Promise_dtor (promise f))]> σ1)
        else Some (s', σ1)
    | None =>
        back ← last (m_coroutines s);
        Some (MkScheduler (removelast (<[i := back]> (m_coroutines s))) (pred (m_size s)),
              <[a := set_promise f (Promise_dtor (promise f))]> σ1)
    end.
Proof.
  intros Hi Hr Hf. unfold visit. rewrite Hi. cbn [mbind option_bind].
  rewrite Hr. cbn [mbind option_bind]. rewrite Hf. cbn [mbind option_bind].
  reflexivity.
Qed.

(** C6: a frame whose resumption runs [co_return] ends with [m_done] set and
    [m_next] equal to its [m_previous]. With a parent, the loop of [resume]
    puts the parent in the slot, so the next visit of the slot resumes the
    parent; without one, [m_next] is null and the slot is removed. *)
Theorem finish_hands_over_to_parent
    (i : nat) (s : Scheduler) (σ : gmap nat Frame) (a : nat) (f : Frame)
    (T : ctype) (v : denote T) :
  m_coroutines s !! i = Some (Some a) →
  σ !! a = Some f →
  next_body σ f = Some (co_return_ T v) →
  ∃ σ1 f1 st',
    handle_resume (Some a) σ = Some σ1
    ∧ σ1 !! a = Some f1
    ∧ m_done (promise f1) = 1%Z
    ∧ m_next (promise f1) = m_previous (promise f)
    ∧ point f1 = Finished
    ∧ visit i (s, σ) = Some st'
    ∧ match m_previous (promise f) with
      | Some p => m_coroutines (fst st') = <[i := Some p]> (m_coroutines s)
                  ∧ m_coroutines (fst st') !! i = Some (Some p)
                  ∧ m_size (fst st') = m_size s
      | None => m_next (promise f1) = None
                ∧ m_size (fst st') = pred (m_size s)
                ∧ length (m_coroutines (fst st')) = pred (length (m_coroutines s))
      end.
Proof.
  intros Hi Hf Hc.
  pose proof (handle_resume_next_body _ _ _ _ Hf Hc) as Hr.
  rewrite (run_return a f) in Hr by done.
  destruct (last_lookup_Some _ _ _ Hi) as [back Hback].
  pose proof (visit_eq i s σ _ a _ Hi Hr (lookup_insert_eq _ _ _)) as Hv.
  cbn [promise m_next m_done] in Hv. rewrite Hback in Hv.
  destruct (m_previous (promise f)) as [p |] eqn:Hp.
  - rewrite bool_decide_true in Hv by done.
    eexists _, _, _. split; [exact Hr |]. rewrite lookup_insert_eq.
    split; [reflexivity |]. simpl. do 3 (split; [reflexivity |]).
    split; [exact Hv |]. simpl.
    split; [reflexivity |]. split; [| reflexivity].
    apply list_lookup_insert_eq. eapply lookup_lt_Some; eauto.
  - eexists _, _, _. split; [exact Hr |].
    rewrite lookup_insert_eq.
    split; [reflexivity |]. simpl. do 3 (split; [reflexivity |]).
    split; [exact Hv |]. simpl.
    split; [reflexivity |]. split; [reflexivity |].
    rewrite removelast_firstn_len, length_take, length_insert. lia.
Qed.

Lemma finish_hands_over_to_parent_witness :
  ∃ σ1 f1 st',
    handle_resume (Some 0) (snd (call (co_return_ Tint 42%Z) ∅)) = Some σ1
    ∧ σ1 !! 0 = Some f1
    ∧ m_done (promise f1) = 1%Z
    ∧ m_next (promise f1)
      = m_previous (promise (MkFrame (fst (get_return_object 0 Promise_ctor))
                                     (Suspended (co_return_ Tint 42%Z))))
    ∧ point f1 = Finished
    ∧ visit 0 (MkScheduler [Some 0] 1, snd (call (co_return_ Tint 42%Z) ∅)) = Some st'
    ∧ match m_previous (promise (MkFrame (fst (get_return_object 0 Promise_ctor))
                                         (Suspended (co_return_ Tint 42%Z)))) with
      | Some p => m_coroutines (fst st') = <[0 := Some p]> [Some 0]
                  ∧ m_coroutines (fst st') !! 0 = Some (Some p)
                  ∧ m_size (fst st') = 1
      | None => m_next (promise f1) = None
                ∧ m_size (fst st') = pred 1
                ∧ length (m_coroutines (fst st')) = pred (length [Some 0])
      end.
Proof.
  apply (finish_hands_over_to_parent 0 (MkScheduler [Some 0] 1)
           (snd (call (co_return_ Tint 42%Z) ∅)) 0
           (MkFrame (fst (get_return_object 0 Promise_ctor))
                    (Suspended (co_return_ Tint 42%Z))) Tint 42%Z).
  - reflexivity.
  - vm_compute. reflexivity.
  - reflexivity.
Defined.

(** ** Ownership of frames *)

Lemma call_eq (c : coro) (σ : gmap nat Frame) :
  call c σ = (MkTask (Some (fresh (dom σ))),
              <[fresh (dom σ) := MkFrame Promise_ctor (Suspended c)]> σ).
Proof. reflexivity. Qed.

(** C9: [schedule] leaves the task with a null handle, and the destructor of
    a task with a null handle changes nothing; the destructor of a task that
    owns a frame releases that frame and touches no other; for a task that
    was never resumed the heap is the one before the call, so nothing of the
    body has run. *)
Theorem task_ownership :
  (∀ (t : Task) (s : Scheduler),
     fst (schedule t s) = MkTask None
     ∧ m_coroutines (snd (schedule t s)) = m_coroutines s ++ [m_handle t]
     ∧ m_size (snd (schedule t s)) = S (m_size s))
  ∧ (∀ σ : gmap nat Frame, Task_dtor (MkTask None) σ = Some (MkTask None, σ))
  ∧ (∀ (t : Task) (s : Scheduler) (σ : gmap nat Frame),
       Task_dtor (fst (schedule t s)) σ = Some (MkTask None, σ))
  ∧ (∀ (a : nat) (f : Frame) (σ : gmap nat Frame),
       σ !! a = Some f →
       Task_dtor (MkTask (Some a)) σ = Some (MkTask None, delete a σ))
  ∧ (∀ (c : coro) (σ : gmap nat Frame),
       Task_dtor (fst (call c σ)) (snd (call c σ)) = Some (MkTask None, σ)).
Proof.
  split; [intros; done |]. split; [intros; done |]. split; [intros; done |].
  split.
  - intros a f σ Hf. unfold Task_dtor, destroy; simpl. rewrite Hf. reflexivity.
  - intros c σ. rewrite call_eq. unfold Task_dtor, destroy; simpl.
    rewrite lookup_insert_eq; simpl.
    rewrite delete_insert_id by apply fresh_lookup. reflexivity.
Qed.

Lemma task_ownership_witness :
  Task_dtor (MkTask (Some 0)) (snd (call (co_return_ Tint 42%Z) ∅))
  = Some (MkTask None, delete 0 (snd (call (co_return_ Tint 42%Z) ∅))).
Proof.
  apply (proj1 (proj2 (proj2 (proj2 task_ownership))) 0
           (MkFrame (fst (get_return_object 0 Promise_ctor))
                    (Suspended (co_return_ Tint 42%Z)))).
  vm_compute. reflexivity.
Defined.

(** ** The invariant of the scheduler *)

Lemma steps_pos (c : coro) : 0 < steps c.
Proof. destruct c; simpl; lia. Qed.

Lemma weight_pos (d : slot) : 0 < weight d.
Proof. unfold weight. pose proof (steps_pos (s_body d)). lia. Qed.

Lemma sum_weight_length (ds : list slot) : length ds ≤ sum_list_with weight ds.
Proof.
  induction ds as [| d ds IH]; simpl; [lia |].
  pose proof (weight_pos d). lia.
Qed.

Lemma frontier_not_finished σ a c prev :
  frontier σ a c prev → ∀ f, σ !! a = Some f → point f ≠ Finished.
Proof.
  intros (f & Hf & _ & _ & [Hp | (d & fd & k & Hp & _)]) f' Hf';
    simplify_eq; rewrite Hp; done.
Qed.

Lemma frontier_next_body σ a c prev :
  frontier σ a c prev → ∃ f, σ !! a = Some f ∧ next_body σ f = Some c
                           ∧ m_previous (promise f) = prev
                           ∧ m_done (promise f) = 0%Z.
Proof.
  intros (f & Hf & Hprev & Hdone & [Hp | (d & fd & k & Hp & Hd & Hfin & Hdata & ->)]);
    exists f; unfold next_body; rewrite Hp; [done |].
  unfold await_resume; simpl. rewrite Hd; simpl. rewrite Hdata. done.
Qed.

Lemma frontier_frame σ σ' a x c prev :
  agrees σ σ' a → (∀ f, σ !! a = Some f → point f ≠ Finished) →
  x ≠ a → frontier σ x c prev → frontier σ' x c prev.
Proof.
  intros Hag Hnf Hne (f & Hf & Hprev & Hdone & Hpt).
  exists f. split; [rewrite Hag; eauto |]. do 2 (split; [done |]).
  destruct Hpt as [Hp | (d & fd & k & Hp & Hd & Hfin & Hdata & ->)]; [by left |].
  right. exists d, fd, k. split; [done |]. split; [| done].
  rewrite Hag; eauto. intros ->. by apply (Hnf fd).
Qed.

Lemma chain_frame σ σ' a child prev ks :
  agrees σ σ' a → a ∉ ks.*1 → chain σ child prev ks → chain σ' child prev ks.
Proof.
  intros Hag. revert child prev.
  induction ks as [| [p k] ks IH]; intros child prev Hnin Hch; simpl in *; [done |].
  destruct Hch as (-> & f & Hf & Hp & Hdone & Hch).
  apply not_elem_of_cons in Hnin as [Hne Hnin].
  split; [done |]. exists f. split; [rewrite Hag; eauto |]. eauto.
Qed.

Lemma chain_dom σ child prev ks x :
  chain σ child prev ks → x ∈ ks.*1 → is_Some (σ !! x).
Proof.
  revert child prev. induction ks as [| [p k] ks IH]; intros child prev Hch Hx; simpl in *.
  - by apply elem_of_nil in Hx.
  - destruct Hch as (-> & f & Hf & Hp & Hdone & Hch).
    apply elem_of_cons in Hx as [-> | Hx]; eauto.
Qed.

Lemma slot_ok_dom σ d x : slot_ok σ d → x ∈ footprint d → is_Some (σ !! x).
Proof.
  intros (prev & (f & Hf & _) & Hch & _) Hx. unfold footprint in Hx.
  apply elem_of_cons in Hx as [-> | Hx]; [eauto |].
  eapply chain_dom; eauto.
Qed.

Lemma slot_ok_frame σ σ' a d :
  agrees σ σ' a → (∀ f, σ !! a = Some f → point f ≠ Finished) →
  a ∉ footprint d → slot_ok σ d → slot_ok σ' d.
Proof.
  intros Hag Hnf Hnin (prev & Hfr & Hch & Hwd & Hks).
  unfold footprint in Hnin. apply not_elem_of_cons in Hnin as [Hne Hnin].
  exists prev. split; [eapply frontier_frame; eauto |].
  split; [eapply chain_frame; eauto |]. done.
Qed.

Lemma others_ok σ σ' ds1 d ds2 dj :
  Forall (slot_ok σ) (ds1 ++ d :: ds2) →
  NoDup ((ds1 ++ d :: ds2) ≫= footprint) →
  agrees σ σ' (s_front d) →
  dj ∈ ds1 ++ ds2 → slot_ok σ' dj.
Proof.
  intros Hall Hnd Hag Hin.
  rewrite Forall_app, Forall_cons in Hall. destruct Hall as (H1 & Hd & H2).
  rewrite bind_app, bind_cons in Hnd.
  apply NoDup_app in Hnd as (_ & Hd1 & Hnd).
  apply NoDup_app in Hnd as (_ & Hd2 & _).
  assert (s_front d ∈ footprint d) as Ha by (unfold footprint; apply elem_of_cons; auto).
  destruct Hd as (prev & Hfr & _).
  apply elem_of_app in Hin as [Hin | Hin].
  - eapply slot_ok_frame; eauto using frontier_not_finished.
    + intros Hx. apply (Hd1 (s_front d)).
      * apply list_elem_of_bind. eauto.
      * apply elem_of_app. auto.
    + rewrite Forall_forall in H1. auto.
  - eapply slot_ok_frame; eauto using frontier_not_finished.
    + intros Hx. apply (Hd2 (s_front d) Ha).
      apply list_elem_of_bind. eauto.
    + rewrite Forall_forall in H2. auto.
Qed.

Lemma slots_update σ σ' ds1 d ds2 d' :
  Forall (slot_ok σ) (ds1 ++ d :: ds2) →
  NoDup ((ds1 ++ d :: ds2) ≫= footprint) →
  agrees σ σ' (s_front d) →
  slot_ok σ' d' →
  NoDup (footprint d') →
  (∀ x, x ∈ footprint d' → x ∈ footprint d ∨ σ !! x = None) →
  Forall (slot_ok σ') (ds1 ++ d' :: ds2) ∧ NoDup ((ds1 ++ d' :: ds2) ≫= footprint).
Proof.
  intros Hall Hnd Hag Hd' Hnd' Hsub. split.
  - rewrite Forall_app, Forall_cons. rewrite !Forall_forall.
    split; [| split; [done |]]; intros dj Hin;
      eapply others_ok; eauto; apply elem_of_app; auto.
  - pose proof Hall as Hall'.
    rewrite Forall_app, Forall_cons in Hall'. destruct Hall' as (H1 & Hd & H2).
    rewrite Forall_forall in H1, H2.
    assert (∀ x, x ∈ footprint d' →
                 ∀ ds, (∀ dj, dj ∈ ds → slot_ok σ dj) →
                       (∀ y, y ∈ footprint d → y ∉ ds ≫= footprint) →
                       x ∉ ds ≫= footprint) as Hfresh.
    { intros x Hx ds Hok Hdis Hin. destruct (Hsub x Hx) as [Hxd | Hnone].
      - by apply (Hdis x).
      - apply list_elem_of_bind in Hin as (dj & Hxj & Hj).
        destruct (slot_ok_dom σ dj x (Hok dj Hj) Hxj) as [? ?]. congruence. }
    rewrite bind_app, bind_cons in Hnd |- *.
    apply NoDup_app in Hnd as (Hn1 & Hd1 & Hnd).
    apply NoDup_app in Hnd as (Hn & Hd2 & Hn2).
    apply NoDup_app. split; [done |]. split.
    + intros x Hx1 Hx. apply elem_of_app in Hx as [Hx | Hx].
      * apply (Hfresh x Hx ds1 H1); [| done].
        intros y Hy Hy1. apply (Hd1 y Hy1). apply elem_of_app. auto.
      * apply (Hd1 x Hx1). apply elem_of_app. auto.
    + apply NoDup_app. split; [done |]. split; [| done].
      intros x Hx. apply (Hfresh x Hx ds2 H2). done.
Qed.

Lemma slots_remove σ σ' ds1 d ds2 :
  Forall (slot_ok σ) (ds1 ++ d :: ds2) →
  NoDup ((ds1 ++ d :: ds2) ≫= footprint) →
  agrees σ σ' (s_front d) →
  Forall (slot_ok σ') (ds1 ++ ds2) ∧ NoDup ((ds1 ++ ds2) ≫= footprint).
Proof.
  intros Hall Hnd Hag. split.
  - rewrite Forall_forall. intros dj Hin. eapply others_ok; eauto.
  - rewrite bind_app, bind_cons in Hnd. rewrite bind_app.
    apply NoDup_app in Hnd as (Hn1 & Hd1 & Hnd).
    apply NoDup_app in Hnd as (Hn & Hd2 & Hn2).
    apply NoDup_app. split; [done |]. split; [| done].
    intros x Hx1 Hx. apply (Hd1 x Hx1). apply elem_of_app. auto.
Qed.

Lemma swap_remove_perm {A} (l1 l2 : list A) (x back : A) :
  last (l1 ++ x :: l2) = Some back →
  removelast (<[length l1 := back]> (l1 ++ x :: l2)) ≡ₚ l1 ++ l2.
Proof.
  intros Hlast.
  rewrite insert_app_r_alt by lia. rewrite Nat.sub_diag. simpl.
  destruct l2 as [| y l2] using rev_ind.
  - rewrite removelast_last. by rewrite app_nil_r.
  - clear IHl2.
    replace (l1 ++ x :: l2 ++ [y]) with ((l1 ++ x :: l2) ++ [y]) in Hlast
      by (by rewrite <- (assoc_L (++))).
    rewrite last_snoc in Hlast. simplify_eq.
    replace (l1 ++ back :: l2 ++ [back]) with ((l1 ++ back :: l2) ++ [back])
      by (by rewrite <- (assoc_L (++))).
    rewrite removelast_last. apply Permutation_app_head.
    apply Permutation_cons_append.
Qed.

Lemma fmap_removelast {A B} (g : A → B) (l : list A) :
  removelast (g <$> l) = g <$> removelast l.
Proof.
  rewrite !removelast_firstn_len, length_fmap. symmetry. apply fmap_take.
Qed.

Lemma agrees_insert (σ : gmap nat Frame) (a : nat) (x : Frame) : agrees σ (<[a := x]> σ) a.
Proof. intros y Hy _. by rewrite lookup_insert_ne. Qed.

Lemma agrees_insert_fresh (σ : gmap nat Frame) (a b : nat) (x y : Frame) :
  σ !! b = None → agrees σ (<[a := x]> (<[b := y]> σ)) a.
Proof.
  intros Hb z Hz [w Hw]. rewrite lookup_insert_ne by done.
  rewrite lookup_insert_ne; [done |]. intros ->. congruence.
Qed.

Lemma described_replace (s : Scheduler) (σ σ' : gmap nat Frame) ds1 d ds2 d' :
  described (s, σ) (ds1 ++ d :: ds2) →
  agrees σ σ' (s_front d) →
  slot_ok σ' d' →
  NoDup (footprint d') →
  (∀ x, x ∈ footprint d' → x ∈ footprint d ∨ σ !! x = None) →
  described (MkScheduler (<[length ds1 := Some (s_front d')]> (m_coroutines s)) (m_size s), σ')
            (ds1 ++ d' :: ds2).
Proof.
  intros (Hco & Hsz & Hall & Hnd) Hag Hd' Hnd' Hsub. simpl in *.
  destruct (slots_update σ σ' ds1 d ds2 d' Hall Hnd Hag Hd' Hnd' Hsub) as [Hall' Hnd2].
  split; [| split; [| done]]; simpl.
  - rewrite Hco. rewrite !fmap_app, !fmap_cons.
    rewrite insert_app_r_alt by (rewrite length_fmap; lia).
    rewrite length_fmap, Nat.sub_diag. done.
  - rewrite Hsz, !length_app. simpl. done.
Qed.

Lemma described_remove (s : Scheduler) (σ σ' : gmap nat Frame) ds1 d ds2 dl :
  described (s, σ) (ds1 ++ d :: ds2) →
  agrees σ σ' (s_front d) →
  last (ds1 ++ d :: ds2) = Some dl →
  described (MkScheduler (removelast (<[length ds1 := Some (s_front dl)]> (m_coroutines s)))
                         (pred (m_size s)), σ')
            (removelast (<[length ds1 := dl]> (ds1 ++ d :: ds2))).
Proof.
  intros (Hco & Hsz & Hall & Hnd) Hag Hlast. simpl in *.
  destruct (slots_remove σ σ' ds1 d ds2 Hall Hnd Hag) as [Hall' Hnd2].
  pose proof (swap_remove_perm _ _ _ _ Hlast) as Hperm.
  split; [| split; [| split]]; simpl.
  - rewrite Hco. rewrite <- (list_fmap_insert (λ d, Some (s_front d))).
    apply fmap_removelast.
  - rewrite Hsz, removelast_firstn_len, length_take, length_insert. lia.
  - by rewrite Hperm.
  - by rewrite Hperm.
Qed.

Lemma slots_after_replace (b : nat) ds1 d ds2 d' :
  slot_step b d = Some d' →
  slots_after (length ds1) b (ds1 ++ d :: ds2) = ds1 ++ d' :: ds2.
Proof.
  intros Hs. unfold slots_after. rewrite list_lookup_middle by done. rewrite Hs.
  rewrite insert_app_r_alt by lia. by rewrite Nat.sub_diag.
Qed.

Lemma slots_after_remove (b : nat) ds1 d ds2 dl :
  slot_step b d = None → last (ds1 ++ d :: ds2) = Some dl →
  slots_after (length ds1) b (ds1 ++ d :: ds2)
  = removelast (<[length ds1 := dl]> (ds1 ++ d :: ds2)).
Proof.
  intros Hs Hl. unfold slots_after. rewrite list_lookup_middle by done.
  by rewrite Hs, Hl.
Qed.

Lemma weight_slots_after (i b : nat) (ds : list slot) (d : slot) :
  ds !! i = Some d → well_defined (s_body d) →
  S (sum_list_with weight (slots_after i b ds)) = sum_list_with weight ds.
Proof.
  intros Hd Hwd.
  apply list_elem_of_split_length in Hd as (ds1 & ds2 & -> & ->).
  rewrite sum_list_with_app. simpl.
  destruct (slot_step b d) as [d' |] eqn:Hs.
  - rewrite (slots_after_replace _ _ _ _ _ Hs), sum_list_with_app. simpl.
    assert (S (weight d') = weight d) as <-; [| lia].
    destruct d as [a c stack]. unfold slot_step in Hs; simpl in *.
    destruct c as [k | child k | T v |]; simplify_eq; unfold weight; simpl; [done | lia |].
    destruct stack as [| [p k] stack]; simplify_eq. done.
  - destruct (last (ds1 ++ d :: ds2)) as [dl |] eqn:Hl.
    2: { apply last_None in Hl. by destruct ds1. }
    rewrite (slots_after_remove _ _ _ _ _ Hs Hl).
    rewrite (swap_remove_perm _ _ _ _ Hl), sum_list_with_app.
    assert (weight d = 1) as ->; [| lia].
    destruct d as [a c stack]. unfold slot_step in Hs; simpl in *.
    destruct c as [k | child k | T v |]; simplify_eq; [| done].
    destruct stack as [| [p k] stack]; simplify_eq. done.
Qed.

(** One iteration of the loop on a described state: it is defined, and the
    slots change as [slots_after] says. *)
Lemma visit_described (i : nat) (st : state) (ds : list slot) :
  described st ds → i < length ds →
  ∃ st', visit i st = Some st' ∧ described st' (slots_after i (fresh (dom st.2)) ds).
Proof.
  destruct st as [s σ]. intros Hdesc Hi. simpl.
  destruct (lookup_lt_is_Some_2 ds i) as [d Hd]; [lia |].
  apply list_elem_of_split_length in Hd as (ds1 & ds2 & -> & ->).
  pose proof Hdesc as (Hco & Hsz & Hall & Hnd). simpl in *.
  rewrite Forall_app, Forall_cons in Hall. destruct Hall as (_ & Hok & _).
  rewrite bind_app, bind_cons in Hnd.
  apply NoDup_app in Hnd as (_ & _ & Hnd). apply NoDup_app in Hnd as (Hfp & _ & _).
  destruct d as [a c stack]. destruct Hok as (prev & Hfr & Hch & Hwd & Hks). simpl in *.
  destruct (frontier_next_body _ _ _ _ Hfr) as (f & Hf & Hnb & Hprev & Hdone).
  assert (m_coroutines s !! length ds1 = Some (Some a)) as Hslot.
  { rewrite Hco, list_lookup_fmap, list_lookup_middle; done. }
  pose proof (handle_resume_next_body _ _ _ _ Hf Hnb) as Hr.
  unfold footprint in Hfp; simpl in Hfp. apply NoDup_cons in Hfp as [Ha Hst].
  destruct c as [k | child k | T v |]; simpl in Hwd; [| | | done].
  - (* the frame pauses *)
    rewrite (run_yield a f) in Hr by done.
    pose proof (visit_eq _ s σ _ a _ Hslot Hr (lookup_insert_eq _ _ _)) as Hv.
    cbn [promise m_next m_done] in Hv. rewrite Hdone in Hv.
    rewrite bool_decide_false in Hv by (intros H; by apply H).
    eexists. split; [exact Hv |].
    erewrite slots_after_replace by reflexivity.
    apply (described_replace s σ _ ds1 (MkSlot a (co_yield_ k) stack) ds2 (MkSlot a k stack));
      try done.
    + apply agrees_insert.
    + exists prev. simpl. split; [| split; [| done]].
      * eexists. rewrite lookup_insert_eq. split; [done |]. simpl. auto.
      * eapply chain_frame; [apply agrees_insert | done | done].
    + unfold footprint; simpl. by apply NoDup_cons.
    + intros x Hx. by left.
  - (* the frame awaits a new child *)
    destruct Hwd as [Hwc Hwk].
    rewrite (run_await a f) in Hr by done.
    pose proof (fresh_lookup σ) as Hb. pose proof (fresh_ne _ _ _ Hf) as Hab.
    set (b := fresh (dom σ)) in *.
    pose proof (visit_eq _ s σ _ a _ Hslot Hr (lookup_insert_eq _ _ _)) as Hv.
    cbn [promise m_next m_done] in Hv. rewrite Hdone in Hv.
    rewrite bool_decide_false in Hv by (intros H; by apply H).
    eexists. split; [exact Hv |].
    erewrite slots_after_replace by reflexivity.
    apply (described_replace s σ _ ds1 (MkSlot a (co_await_ child k) stack) ds2
             (MkSlot b child ((a, k) :: stack))); try done.
    + by apply agrees_insert_fresh.
    + exists (Some a). simpl. split; [| split; [| split; [done |]]].
      * eexists. rewrite lookup_insert_ne by done. rewrite lookup_insert_eq.
        split; [done |]. simpl. auto.
      * split; [done |]. eexists. rewrite lookup_insert_eq. split; [done |]. simpl.
        split; [done |]. split; [done |]. rewrite Hprev.
        eapply chain_frame; [by apply agrees_insert_fresh | done | done].
      * apply Forall_cons. split; [done | done].
    + unfold footprint; simpl. apply NoDup_cons. split; [| by apply NoDup_cons].
      intros Hx. apply elem_of_cons in Hx as [-> | Hx]; [done |].
      destruct (chain_dom _ _ _ _ _ Hch Hx) as [? ?]. congruence.
    + intros x Hx. unfold footprint in Hx; simpl in Hx.
      apply elem_of_cons in Hx as [-> | Hx]; [by right | by left].
  - (* the frame finishes *)
    rewrite (run_return a f) in Hr by done.
    pose proof (visit_eq _ s σ _ a _ Hslot Hr (lookup_insert_eq _ _ _)) as Hv.
    cbn [promise m_next m_done] in Hv. rewrite Hprev in Hv.
    rewrite insert_insert_eq in Hv.
    destruct stack as [| [p k] stack]; simpl in Hch.
    + subst prev.
      destruct (last (ds1 ++ MkSlot a (co_return_ T v) [] :: ds2)) as [dl |] eqn:Hl.
      2: { apply last_None in Hl. by destruct ds1. }
      assert (last (m_coroutines s) = Some (Some (s_front dl))) as Hback
          by (by rewrite Hco, fmap_last, Hl).
      rewrite Hback in Hv.
      eexists. split; [exact Hv |].
      erewrite slots_after_remove by done.
      apply (described_remove s σ _ ds1 (MkSlot a (co_return_ T v) []) ds2 dl); try done.
      apply agrees_insert.
    + destruct Hch as (-> & fp & Hp & Hpp & Hpd & Hch).
      rewrite bool_decide_true in Hv by done.
      simpl in Hst. apply NoDup_cons in Hst as [Hp' Hst].
      apply not_elem_of_cons in Ha as [Hap Ha].
      apply Forall_cons in Hks as [Hk Hks]. simpl in Hk.
      eexists. split; [exact Hv |].
      erewrite slots_after_replace by reflexivity.
      apply (described_replace s σ _ ds1 (MkSlot a (co_return_ T v) ((p, k) :: stack)) ds2
               (MkSlot p (k empty_result) stack)); try done.
      * apply agrees_insert.
      * exists (m_previous (promise fp)). simpl. split; [| split; [| done]].
        -- exists fp. rewrite lookup_insert_ne by done. split; [done |].
           split; [done |]. split; [done |]. right.
           eexists a, _, k. rewrite lookup_insert_eq. done.
        -- eapply chain_frame; [apply agrees_insert | done | done].
      * unfold footprint; simpl. by apply NoDup_cons.
      * intros x Hx. left. unfold footprint; simpl. apply elem_of_cons. by right.
Qed.

Lemma visit_inv (i : nat) (st : state) (M : nat) :
  inv st M → i < m_size st.1 →
  ∃ st', visit i st = Some st' ∧ inv st' (pred M) ∧ 0 < M ∧ m_size st'.1 ≤ m_size st.1.
Proof.
  intros (ds & Hdesc & ->) Hi.
  pose proof Hdesc as (_ & Hsz & Hall & _). rewrite Hsz in Hi.
  destruct (visit_described i st ds Hdesc Hi) as (st' & Hv & Hdesc').
  destruct (lookup_lt_is_Some_2 ds i Hi) as [d Hd].
  assert (well_defined (s_body d)) as Hwd.
  { rewrite Forall_forall in Hall.
    destruct (Hall d) as (_ & _ & _ & ? & _); [| done].
    apply list_elem_of_lookup. eauto. }
  pose proof (weight_slots_after i (fresh (dom st.2)) ds d Hd Hwd) as Hw.
  exists st'. split; [done |]. split; [| split; [lia |]].
  - eexists. split; [exact Hdesc' |]. lia.
  - destruct Hdesc' as (_ & Hsz' & _). rewrite Hsz, Hsz'.
    unfold slots_after. rewrite Hd.
    destruct (slot_step _ d); [by rewrite length_insert |].
    destruct (last ds); [| done].
    rewrite removelast_firstn_len, length_take, length_insert. lia.
Qed.

(** In a described state, a frame that a slot is about to resume at an await
    is handed the empty [Result]: its child was finalized when it finished. *)
Lemma awaited_result_is_empty (st : state) (ds : list slot) (d : slot)
    (f : Frame) (t : Task) (k : Result → coro) :
  described st ds → d ∈ ds →
  st.2 !! s_front d = Some f → point f = Awaiting t k →
  await_resume t st.2 = Some empty_result.
Proof.
  intros (_ & _ & Hall & _) Hd Hf Hp.
  rewrite Forall_forall in Hall.
  destruct (Hall d Hd) as (prev & (f' & Hf' & _ & _ & Hpt) & _).
  simplify_eq. destruct Hpt as [Hs | (c & fc & k' & Hs & Hc & _ & Hdata & _)];
    rewrite Hp in Hs; simplify_eq.
  unfold await_resume; simpl. rewrite Hc; simpl. by rewrite Hdata.
Qed.

(** ** The loop of [resume] *)

Lemma visit_size (i : nat) (st st' : state) :
  visit i st = Some st' → m_size st'.1 ≤ m_size st.1.
Proof.
  destruct st as [s σ]. unfold visit. intros H.
  destruct (m_coroutines s !! i) as [h |]; simpl in H; [| done].
  destruct (handle_resume h σ) as [σ1 |]; simpl in H; [| done].
  destruct h as [a |]; simpl in H; [| done].
  destruct (σ1 !! a) as [f |]; simpl in H; [| done].
  destruct (m_next (promise f)).
  - destruct (bool_decide _); simplify_eq; simpl; lia.
  - destruct (last (m_coroutines s)); simpl in H; simplify_eq; simpl; lia.
Qed.

Lemma resume_loop_size (fuel : nat) :
  ∀ i st j st', resume_loop fuel i st = Some (j, st') → m_size st'.1 ≤ m_size st.1.
Proof.
  induction fuel as [| fuel IH]; intros i st j st' H; simpl in H; [by simplify_eq |].
  case_bool_decide; [| by simplify_eq].
  destruct (visit i st) as [st1 |] eqn:Hv; simpl in H; [| done].
  apply visit_size in Hv. apply IH in H. lia.
Qed.

(** The fuel [m_size - i] is enough: the loop stops because its guard fails. *)
Lemma resume_loop_guard (fuel : nat) :
  ∀ i st j st', m_size st.1 - i ≤ fuel →
                resume_loop fuel i st = Some (j, st') → m_size st'.1 ≤ j.
Proof.
  induction fuel as [| fuel IH]; intros i st j st' Hfuel H; simpl in H.
  - simplify_eq. lia.
  - case_bool_decide; [| simplify_eq; lia].
    destruct (visit i st) as [st1 |] eqn:Hv; simpl in H; [| done].
    apply visit_size in Hv. apply IH in H; [done | lia].
Qed.

Lemma resume_size (st : state) (b : bool) (st' : state) :
  resume st = Some (b, st') →
  m_size st'.1 ≤ m_size st.1 ∧ (b = true ↔ m_size st'.1 = 0).
Proof.
  unfold resume. intros H.
  destruct (resume_loop (m_size st.1) 0 st) as [[j st1] |] eqn:Hl; simpl in H; [| done].
  simplify_eq. split; [by eapply resume_loop_size |].
  by rewrite bool_decide_eq_true.
Qed.

Lemma resume_idle (st : state) : m_size st.1 = 0 → resume st = Some (true, st).
Proof. intros H. unfold resume. rewrite H. simpl. rewrite H. reflexivity. Qed.

Lemma inv_size (st : state) (M : nat) : inv st M → m_size st.1 ≤ M.
Proof. intros (ds & (_ & -> & _ & _) & ->). apply sum_weight_length. Qed.

Lemma resume_loop_inv (fuel : nat) :
  ∀ i st M, inv st M →
    ∃ j st' M', resume_loop fuel i st = Some (j, st') ∧ inv st' M' ∧ M' ≤ M
              ∧ (0 < fuel → i < m_size st.1 → M' < M).
Proof.
  induction fuel as [| fuel IH]; intros i st M Hinv; simpl.
  - exists i, st, M. split; [done |]. split; [done |]. split; [done | lia].
  - case_bool_decide as Hi.
    + destruct (visit_inv i st M Hinv Hi) as (st1 & Hv & Hinv1 & HM & _).
      rewrite Hv; simpl.
      destruct (IH (S i) st1 (pred M) Hinv1) as (j & st' & M' & Hl & Hinv' & HM' & _).
      exists j, st', M'. split; [done |]. split; [done |]. lia.
    + exists i, st, M. split; [done |]. split; [done |]. split; [done | lia].
Qed.

Lemma resume_inv (st : state) (M : nat) :
  inv st M →
  ∃ b st' M', resume st = Some (b, st') ∧ inv st' M' ∧ M' ≤ M
            ∧ (0 < m_size st.1 → M' < M).
Proof.
  intros Hinv. unfold resume.
  destruct (resume_loop_inv (m_size st.1) 0 st M Hinv)
    as (j & st' & M' & Hl & Hinv' & HM' & Hlt).
  rewrite Hl; simpl. eexists _, st', M'. split; [done |]. split; [done |].
  split; [done |]. intros Hpos. by apply Hlt.
Qed.

Lemma ticks_defined (n : nat) :
  ∀ st M, inv st M → ∃ st' M', ticks n st = Some st' ∧ inv st' M'.
Proof.
  induction n as [| n IH]; intros st M Hinv; simpl; [eauto |].
  destruct (resume_inv st M Hinv) as (b & st1 & M1 & Hr & Hinv1 & _).
  rewrite Hr; simpl. eauto.
Qed.

Lemma ticks_reach_zero (M : nat) :
  ∀ st, inv st M →
    ∃ n st', n ≤ M ∧ ticks n st = Some st' ∧ m_size st'.1 = 0.
Proof.
  induction (lt_wf M) as [M _ IH]. intros st Hinv.
  destruct (decide (m_size st.1 = 0)) as [Hz | Hnz].
  - exists 0, st. split; [lia |]. done.
  - destruct (resume_inv st M Hinv) as (b & st1 & M1 & Hr & Hinv1 & _ & Hlt).
    destruct (IH M1 (Hlt ltac:(lia)) st1 Hinv1) as (n & st' & Hn & Ht & Hz).
    exists (S n), st'. split; [pose proof (Hlt ltac:(lia)); lia |].
    simpl. rewrite Hr; simpl. done.
Qed.

(** ** Submitting tasks *)

Lemma described_initial : described initial_state [].
Proof.
  split; [done |]. split; [done |]. split; [done |]. apply NoDup_nil_2.
Qed.

Lemma inv_initial : inv initial_state 0.
Proof. exists []. split; [apply described_initial | done]. Qed.

Lemma submit_described (c : coro) (st : state) (ds : list slot) :
  described st ds → well_defined c →
  described (submit c st) (ds ++ [MkSlot (fresh (dom st.2)) c []]).
Proof.
  destruct st as [s σ]. intros (Hco & Hsz & Hall & Hnd) Hwd. simpl in *.
  pose proof (fresh_lookup σ) as Hb. set (b := fresh (dom σ)) in *.
  split; [by rewrite Hco, fmap_app |].
  split; [rewrite length_app; simpl; lia |].
  split.
  - apply Forall_app. split.
    + rewrite Forall_forall in Hall |- *. intros d Hd.
      eapply (slot_ok_frame σ _ b); [apply agrees_insert | | | by apply Hall].
      * intros f Hf. congruence.
      * intros Hx. destruct (slot_ok_dom σ d b (Hall d Hd) Hx) as [? ?]. congruence.
    + apply Forall_cons. split; [| done]. exists None. simpl.
      split; [| done]. eexists. rewrite lookup_insert_eq. split; [done |]. simpl. auto.
  - rewrite bind_app. apply NoDup_app. split; [done |]. split.
    + intros x Hx Hxb. rewrite bind_cons in Hxb. simpl in Hxb.
      unfold footprint in Hxb; simpl in Hxb.
      apply list_elem_of_singleton in Hxb as ->.
      apply list_elem_of_bind in Hx as (d & Hxd & Hd).
      rewrite Forall_forall in Hall.
      destruct (slot_ok_dom σ d b (Hall d Hd) Hxd) as [? ?]. congruence.
    + rewrite bind_cons. simpl. unfold footprint; simpl. apply NoDup_singleton.
Qed.

Lemma submit_all_described (cs : list coro) :
  ∀ st ds, described st ds → Forall well_defined cs →
    ∃ addrs, length addrs = length cs
           ∧ described (submit_all cs st) (ds ++ roots addrs cs).
Proof.
  unfold submit_all.
  induction cs as [| c cs IH]; intros st ds Hdesc Hwd; simpl.
  - exists []. split; [done |]. by rewrite app_nil_r.
  - apply Forall_cons in Hwd as [Hc Hcs].
    destruct (IH _ _ (submit_described c st ds Hdesc Hc) Hcs) as (addrs & Hlen & Hd).
    exists (fresh (dom st.2) :: addrs). split; [simpl; lia |].
    by rewrite <- (assoc_L (++)) in Hd.
Qed.

Lemma weight_roots (addrs : list nat) (cs : list coro) :
  length addrs = length cs →
  sum_list_with weight (roots addrs cs) = sum_list_with steps cs.
Proof.
  revert cs. induction addrs as [| a addrs IH]; intros [| c cs] Hlen;
    simplify_eq/=; [done |].
  rewrite IH by done. unfold weight; simpl. lia.
Qed.

Lemma submit_all_inv (cs : list coro) :
  Forall well_defined cs →
  inv (submit_all cs initial_state) (sum_list_with steps cs).
Proof.
  intros Hwd.
  destruct (submit_all_described cs _ _ described_initial Hwd) as (addrs & Hlen & Hd).
  eexists. split; [exact Hd |]. simpl. by rewrite weight_roots.
Qed.

Lemma ticks_succ_r (n : nat) :
  ∀ st, ticks (S n) st = st1 ← ticks n st; '(_, st2) ← resume st1; Some st2.
Proof.
  induction n as [| n IH]; intros st.
  - simpl. destruct (resume st) as [[b st1] |]; reflexivity.
  - simpl. destruct (resume st) as [[b st1] |]; simpl; [| reflexivity].
    specialize (IH st1). simpl in IH. exact IH.
Qed.

Lemma ticks_add (m : nat) :
  ∀ n st, ticks (m + n) st = st' ← ticks m st; ticks n st'.
Proof.
  induction m as [| m IH]; intros n st; [reflexivity |].
  simpl. destruct (resume st) as [[b st1] |]; simpl; [apply IH | reflexivity].
Qed.

(** X12: the live count never goes up: from any state, the live count after
    [n + 1] calls of [resume] is at most the one after [n] calls, and a call
    answers true exactly when it leaves the live count at zero. *)
Theorem live_count_never_increases :
  (∀ (st : state) (n : nat) (st1 st2 : state),
     ticks n st = Some st1 → ticks (S n) st = Some st2 →
     m_size st2.1 ≤ m_size st1.1)
  ∧ (∀ (st : state) (b : bool) (st' : state),
       resume st = Some (b, st') →
       m_size st'.1 ≤ m_size st.1 ∧ (b = true ↔ m_size st'.1 = 0)).
Proof.
  split.
  - intros st n st1 st2 Hn HSn. rewrite ticks_succ_r, Hn in HSn. simpl in HSn.
    destruct (resume st1) as [[b st3] |] eqn:Hr; simplify_eq/=.
    by apply resume_size in Hr as [? _].
  - intros st b st' Hr. by apply resume_size.
Qed.

Lemma live_count_never_increases_witness :
  ∃ st1 st2,
    ticks 1 (submit_all [pauses 0 Tint 1%Z; pauses 1 Tint 2%Z] initial_state) = Some st1
    ∧ ticks 2 (submit_all [pauses 0 Tint 1%Z; pauses 1 Tint 2%Z] initial_state) = Some st2
    ∧ m_size st2.1 ≤ m_size st1.1.
Proof.
  eexists _, _. split; [vm_compute; reflexivity |]. split; [vm_compute; reflexivity |].
  apply (proj1 live_count_never_increases
           (submit_all [pauses 0 Tint 1%Z; pauses 1 Tint 2%Z] initial_state) 1);
    vm_compute; reflexivity.
Defined.

(** X13: after any sequence of submissions of well-defined bodies, every
    call of [resume] is defined and the live count is zero after finitely
    many calls, at most the total number of resumptions the bodies need;
    from there [resume] answers true. *)
Theorem well_defined_tasks_retire (cs : list coro) :
  Forall well_defined cs →
  (∀ n, ∃ st, ticks n (submit_all cs initial_state) = Some st)
  ∧ (∃ n st, n ≤ sum_list_with steps cs
           ∧ ticks n (submit_all cs initial_state) = Some st
           ∧ m_size st.1 = 0
           ∧ resume st = Some (true, st)).
Proof.
  intros Hwd. pose proof (submit_all_inv cs Hwd) as Hinv. split.
  - intros n. destruct (ticks_defined n _ _ Hinv) as (st & M & Ht & _). eauto.
  - destruct (ticks_reach_zero _ _ Hinv) as (n & st & Hn & Ht & Hz).
    exists n, st. split; [done |]. split; [done |]. split; [done |].
    by apply resume_idle.
Qed.

Lemma well_defined_tasks_retire_witness :
  (∀ n, ∃ st, ticks n (submit_all [pauses 1 Tint 7%Z;
                                    awaits_child Tint 42%Z (λ _, pauses 0 Tbool true)]
                                   initial_state) = Some st)
  ∧ (∃ n st, n ≤ sum_list_with steps
                    [pauses 1 Tint 7%Z; awaits_child Tint 42%Z (λ _, pauses 0 Tbool true)]
           ∧ ticks n (submit_all [pauses 1 Tint 7%Z;
                                  awaits_child Tint 42%Z (λ _, pauses 0 Tbool true)]
                                 initial_state) = Some st
           ∧ m_size st.1 = 0
           ∧ resume st = Some (true, st)).
Proof.
  apply (well_defined_tasks_retire
           [pauses 1 Tint 7%Z; awaits_child Tint 42%Z (λ _, pauses 0 Tbool true)]).
  repeat constructor; simpl; auto.
Defined.

(** ** A single root *)

Lemma resume_single (st : state) :
  m_size st.1 = 1 →
  resume st = st' ← visit 0 st; Some (bool_decide (m_size st'.1 = 0), st').
Proof.
  intros H. unfold resume. rewrite H. simpl. rewrite H.
  rewrite bool_decide_true by lia. destruct (visit 0 st); reflexivity.
Qed.

Lemma inv_zero (st : state) (M : nat) : inv st M → (m_size st.1 = 0 ↔ M = 0).
Proof.
  intros Hinv. split.
  - destruct Hinv as (ds & (_ & -> & _ & _) & ->). intros H.
    apply nil_length_inv in H. by subst.
  - intros ->. apply inv_size in Hinv. lia.
Qed.

Lemma single_root_ticks (k : nat) :
  ∀ st M, inv st M → m_size st.1 ≤ 1 → k ≤ M →
          ∃ st', ticks k st = Some st' ∧ inv st' (M - k) ∧ m_size st'.1 ≤ 1.
Proof.
  induction k as [| k IH]; intros st M Hinv Hsz Hk; simpl.
  - exists st. rewrite Nat.sub_0_r. done.
  - assert (m_size st.1 = 1) as H1.
    { pose proof (inv_zero st M Hinv) as Hz. lia. }
    destruct (visit_inv 0 st M Hinv ltac:(lia)) as (st1 & Hv & Hinv1 & HM & Hsz1).
    rewrite (resume_single st H1), Hv. simpl.
    destruct (IH st1 (pred M) Hinv1 ltac:(lia) ltac:(lia)) as (st' & Ht & Hinv' & Hsz').
    exists st'. split; [done |]. split; [| done].
    replace (M - S k) with (pred M - k) by lia. done.
Qed.

(** A single well-defined root is live for exactly [steps c] calls. *)
Lemma single_root_exact (c : coro) :
  well_defined c →
  (∀ k, k < steps c →
        ∃ st, ticks k (submit c initial_state) = Some st ∧ m_size st.1 = 1)
  ∧ (∃ st, ticks (steps c) (submit c initial_state) = Some st ∧ m_size st.1 = 0).
Proof.
  intros Hwd.
  pose proof (submit_all_inv [c] ltac:(by apply Forall_singleton)) as Hinv.
  simpl in Hinv. rewrite Nat.add_0_r in Hinv.
  change (submit_all [c] initial_state) with (submit c initial_state) in Hinv.
  assert (m_size (submit c initial_state).1 ≤ 1) as Hsz by (simpl; lia).
  split.
  - intros k Hk.
    destruct (single_root_ticks k _ _ Hinv Hsz ltac:(lia)) as (st & Ht & Hinv' & Hsz').
    exists st. split; [done |]. pose proof (inv_zero _ _ Hinv'). lia.
  - destruct (single_root_ticks (steps c) _ _ Hinv Hsz ltac:(lia))
      as (st & Ht & Hinv' & Hsz').
    exists st. split; [done |]. apply (inv_zero _ _ Hinv'). lia.
Qed.

Lemma steps_pauses (N : nat) (T : ctype) (v : denote T) : steps (pauses N T v) = S N.
Proof. induction N as [| N IH]; simpl; [done | by rewrite IH]. Qed.

Lemma well_defined_pauses (N : nat) (T : ctype) (v : denote T) : well_defined (pauses N T v).
Proof. induction N as [| N IH]; simpl; done. Qed.

Lemma resumptions_pauses (a : nat) (T : ctype) (v : denote T) (k : nat) :
  ∀ N σ f, σ !! a = Some f → point f = Suspended (pauses (k + N) T v) →
    ∃ σ' f', resumptions k (Some a) σ = Some σ' ∧ σ' !! a = Some f'
           ∧ point f' = Suspended (pauses N T v)
           ∧ m_done (promise f') = m_done (promise f)
           ∧ m_previous (promise f') = m_previous (promise f).
Proof.
  induction k as [| k IH]; intros N σ f Hf Hp; simpl.
  - exists σ, f. done.
  - assert (next_body σ f = Some (co_yield_ (pauses (k + N) T v))) as Hnb
        by (unfold next_body; by rewrite Hp).
    rewrite (handle_resume_next_body _ _ _ _ Hf Hnb), (run_yield a f) by done. simpl.
    match goal with
    | |- context [<[a := ?F]> σ] =>
        destruct (IH N (<[a := F]> σ) F (lookup_insert_eq _ _ _) eq_refl)
          as (σ' & f' & Hr & Hf' & Hp' & Hd' & Hv')
    end.
    exists σ', f'. done.
Qed.

(** C7: a frame whose body is [N] pauses and a [co_return] is still
    unfinished after each of its first [N] resumptions and finished by
    resumption [N + 1]; as the only root of a scheduler it is live after
    each of the first [N] calls of [resume] and gone after call [N + 1]. With
    [N = 0] the first resumption finishes it. *)
Theorem pauses_need_one_more_resumption (N : nat) (T : ctype) (v : denote T) :
  (∀ (a : nat) (f : Frame) (σ : gmap nat Frame),
     σ !! a = Some f → point f = Suspended (pauses N T v) → m_done (promise f) = 0%Z →
     (∀ k, k ≤ N →
           ∃ σ' f', resumptions k (Some a) σ = Some σ' ∧ σ' !! a = Some f'
                  ∧ point f' = Suspended (pauses (N - k) T v)
                  ∧ m_done (promise f') = 0%Z)
     ∧ (∃ σ' f', resumptions (S N) (Some a) σ = Some σ' ∧ σ' !! a = Some f'
               ∧ point f' = Finished ∧ m_done (promise f') = 1%Z))
  ∧ (∀ k, k ≤ N →
          ∃ st, ticks k (submit (pauses N T v) initial_state) = Some st ∧ m_size st.1 = 1)
  ∧ (∃ st, ticks (S N) (submit (pauses N T v) initial_state) = Some st
         ∧ m_size st.1 = 0).
Proof.
  split; [| split].
  - intros a f σ Hf Hp Hd. split.
    + intros k Hk.
      destruct (resumptions_pauses a T v k (N - k) σ f Hf) as (σ' & f' & Hr & Hf' & Hp' & Hd' & _).
      { rewrite Hp. do 2 f_equal. lia. }
      exists σ', f'. rewrite Hd'. done.
    + destruct (resumptions_pauses a T v N 0 σ f Hf) as (σ' & f' & Hr & Hf' & Hp' & Hd' & _).
      { rewrite Hp. do 2 f_equal. lia. }
      assert (next_body σ' f' = Some (co_return_ T v)) as Hnb
          by (unfold next_body; by rewrite Hp').
      replace (S N) with (N + 1) by lia.
      assert (∀ n m h σ0, resumptions (n + m) h σ0
                          = σ1 ← resumptions n h σ0; resumptions m h σ1) as Happ.
      { clear. induction n as [| n IH]; intros m h σ0; simpl; [done |].
        destruct (handle_resume h σ0); simpl; [apply IH | done]. }
      rewrite Happ, Hr. simpl.
      rewrite (handle_resume_next_body _ _ _ _ Hf' Hnb), (run_return a f') by done.
      simpl. eexists _, _. split; [done |]. rewrite lookup_insert_eq. done.
  - intros k Hk.
    apply (proj1 (single_root_exact _ (well_defined_pauses N T v))).
    rewrite steps_pauses. lia.
  - rewrite <- (steps_pauses N T v).
    apply (proj2 (single_root_exact _ (well_defined_pauses N T v))).
Qed.

Lemma pauses_need_one_more_resumption_witness :
  ((∀ k, k ≤ 2 →
         ∃ σ' f', resumptions k (Some 0) (call (pauses 2 Tint 5%Z) ∅).2 = Some σ'
                ∧ σ' !! 0 = Some f'
                ∧ point f' = Suspended (pauses (2 - k) Tint 5%Z)
                ∧ m_done (promise f') = 0%Z)
   ∧ (∃ σ' f', resumptions 3 (Some 0) (call (pauses 2 Tint 5%Z) ∅).2 = Some σ'
             ∧ σ' !! 0 = Some f'
             ∧ point f' = Finished ∧ m_done (promise f') = 1%Z))
  ∧ (∃ st, ticks 1 (submit (pauses 2 Tint 5%Z) initial_state) = Some st ∧ m_size st.1 = 1).
Proof.
  split.
  - apply (proj1 (pauses_need_one_more_resumption 2 Tint 5%Z) 0
             (MkFrame Promise_ctor (Suspended (pauses 2 Tint 5%Z)))).
    + vm_compute. reflexivity.
    + reflexivity.
    + reflexivity.
  - apply (proj1 (proj2 (pauses_need_one_more_resumption 2 Tint 5%Z)) 1). lia.
Defined.

(** ** Ticks on uniform slots *)

(** When every frontier frame pauses, the loop visits every slot once and
    removes none. *)
Lemma resume_loop_pausing (todo : list slot) :
  ∀ fuel st visited, described st (visited ++ todo) → Forall pausing todo →
    length todo ≤ fuel →
    ∃ st', resume_loop fuel (length visited) st = Some (length (visited ++ todo), st')
         ∧ described st' (visited ++ (after_pause <$> todo)).
Proof.
  induction todo as [| d todo IH]; intros fuel st visited Hdesc Hp Hfuel.
  - simpl. rewrite !app_nil_r in *. exists st. split; [| done].
    destruct Hdesc as (_ & Hsz & _).
    destruct fuel; simpl; [done |]. rewrite bool_decide_false by lia. done.
  - apply Forall_cons in Hp as [[k Hk] Hp].
    destruct fuel as [| fuel]; simpl in Hfuel; [lia |].
    pose proof Hdesc as (_ & Hsz & _).
    destruct (visit_described (length visited) st _ Hdesc) as (st1 & Hv & Hdesc1).
    { rewrite length_app. simpl. lia. }
    rewrite (slots_after_replace _ _ _ _ (after_pause d)) in Hdesc1.
    2: { unfold slot_step, after_pause. by rewrite Hk. }
    replace (visited ++ after_pause d :: todo)
      with ((visited ++ [after_pause d]) ++ todo) in Hdesc1
      by (by rewrite <- (assoc_L (++))).
    destruct (IH fuel st1 _ Hdesc1 Hp ltac:(lia)) as (st' & Hl & Hdesc').
    exists st'. simpl.
    rewrite bool_decide_true by (rewrite Hsz, length_app; simpl; lia).
    rewrite Hv. simpl.
    rewrite length_app in Hl. simpl in Hl. rewrite Nat.add_1_r in Hl.
    rewrite Hl. split.
    + f_equal. f_equal. rewrite !length_app. simpl. lia.
    + by rewrite <- (assoc_L (++)) in Hdesc'.
Qed.

(** When every slot is a root about to return, each visit removes the slot
    it visits and moves the last slot into its place, which the index then
    skips: of [n] slots, from index [i] on, [(i + n) / 2] remain. *)
Lemma resume_loop_returning (fuel : nat) :
  ∀ i st ds, described st ds → Forall returning_root ds →
    i ≤ S (length ds) → length ds - i ≤ fuel →
    ∃ j st' ds', resume_loop fuel i st = Some (j, st')
               ∧ described st' ds' ∧ Forall returning_root ds'
               ∧ length ds' = (i + length ds) / 2.
Proof.
  induction fuel as [| fuel IH]; intros i st ds Hdesc Hret Hi Hfuel;
    pose proof Hdesc as (_ & Hsz & _); cbn [resume_loop].
  - exists i, st, ds. split; [done |]. split; [done |]. split; [done |].
    apply (Nat.div_unique _ 2 _ (i - length ds)); lia.
  - case_bool_decide as Hlt.
    + rewrite Hsz in Hlt.
      destruct (visit_described i st ds Hdesc Hlt) as (st1 & Hv & Hdesc1).
      destruct (lookup_lt_is_Some_2 ds i Hlt) as [d Hd].
      apply list_elem_of_split_length in Hd as (ds1 & ds2 & -> & ->).
      pose proof Hret as Hret'. rewrite Forall_app, Forall_cons in Hret'.
      destruct Hret' as (Hr1 & [(T & v & Hb) Hs] & Hr2).
      destruct (last (ds1 ++ d :: ds2)) as [dl |] eqn:Hl.
      2: { apply last_None in Hl. by destruct ds1. }
      rewrite (slots_after_remove _ _ _ _ dl) in Hdesc1; [| | done].
      2: { unfold slot_step. by rewrite Hb, Hs. }
      pose proof (swap_remove_perm _ _ _ _ Hl) as Hperm.
      assert (length (removelast (<[length ds1 := dl]> (ds1 ++ d :: ds2)))
              = length ds1 + length ds2) as Hlen.
      { rewrite Hperm. by rewrite length_app. }
      rewrite length_app in Hi, Hfuel, Hlt |- *. cbn [length] in Hi, Hfuel, Hlt |- *.
      destruct (IH (S (length ds1)) st1 _ Hdesc1) as (j & st' & ds' & Hloop & Hd' & Hr' & Hn).
      { rewrite Hperm. apply Forall_app. done. }
      { lia. }
      { lia. }
      rewrite Hv. cbn [mbind option_bind]. exists j, st', ds'.
      split; [done |]. split; [done |]. split; [done |].
      rewrite Hn, Hlen. f_equal. lia.
    + exists i, st, ds. split; [done |]. split; [done |]. split; [done |].
      apply (Nat.div_unique _ 2 _ (i - length ds)); lia.
Qed.

Lemma roots_fmap (g : coro → coro) (addrs : list nat) (cs : list coro) :
  (λ d, MkSlot (s_front d) (g (s_body d)) (s_stack d)) <$> roots addrs cs
  = roots addrs (g <$> cs).
Proof.
  revert cs. induction addrs as [| a addrs IH]; intros [| c cs]; simpl; [done.. |].
  by rewrite <- IH.
Qed.

Lemma length_roots (addrs : list nat) (cs : list coro) :
  length addrs = length cs → length (roots addrs cs) = length cs.
Proof. intros H. unfold roots. rewrite length_zip_with. lia. Qed.

(** [K] tasks with one pause each, for every [K]: the first call of
    [resume] resumes every task once and leaves all [K] live, each with only
    its [co_return] left; the second call leaves [K / 2] of them live. *)
Lemma single_pause_tasks_general (os : list object) :
  let K := length os in
  let st0 := submit_all ((λ o, pauses 1 (dyn_type o) (dyn_value o)) <$> os) initial_state in
  ∃ addrs st1 st2,
    length addrs = K
    ∧ resume st0 = Some (bool_decide (K = 0), st1)
    ∧ m_size st1.1 = K
    ∧ described st1 (roots addrs ((λ o, co_return_ (dyn_type o) (dyn_value o)) <$> os))
    ∧ resume st1 = Some (bool_decide (K / 2 = 0), st2)
    ∧ m_size st2.1 = K / 2.
Proof.
  intros K st0.
  destruct (submit_all_described ((λ o, pauses 1 (dyn_type o) (dyn_value o)) <$> os)
              initial_state [] described_initial) as (addrs & Hlen & Hd0).
  { apply Forall_fmap, Forall_forall. intros o _. apply (well_defined_pauses 1). }
  fold st0 in Hd0. cbn [app] in Hd0. rewrite length_fmap in Hlen.
  set (ds0 := roots addrs ((λ o, pauses 1 (dyn_type o) (dyn_value o)) <$> os)) in *.
  assert (length ds0 = K) as Hlen0
      by (unfold ds0; rewrite length_roots; rewrite length_fmap; done).
  pose proof Hd0 as (_ & Hsz0 & _).
  destruct (resume_loop_pausing ds0 (m_size st0.1) st0 [] Hd0) as (st1 & Hl1 & Hd1).
  { unfold ds0, roots. clear. revert os. induction addrs as [| a addrs IH];
      intros [| o os]; simpl; constructor; [by eexists | apply IH]. }
  { lia. }
  simpl in Hl1, Hd1.
  assert (after_pause <$> ds0
          = roots addrs ((λ o, co_return_ (dyn_type o) (dyn_value o)) <$> os)) as Heq.
  { unfold ds0, roots. clear. revert os. induction addrs as [| a addrs IH];
      intros [| o os]; simpl; [done.. |]. by rewrite IH. }
  rewrite Heq in Hd1.
  set (ds1 := roots addrs ((λ o, co_return_ (dyn_type o) (dyn_value o)) <$> os)) in *.
  assert (length ds1 = K) as Hlen1
      by (unfold ds1; rewrite length_roots; rewrite length_fmap; done).
  pose proof Hd1 as (_ & Hsz1 & _).
  destruct (resume_loop_returning (m_size st1.1) 0 st1 ds1 Hd1)
    as (j & st2 & ds2 & Hl2 & Hd2 & _ & Hn2).
  { unfold ds1, roots. clear. revert os. induction addrs as [| a addrs IH];
      intros [| o os]; simpl; constructor; [| apply IH].
    split; [by eexists _, _ | done]. }
  { lia. }
  { lia. }
  pose proof Hd2 as (_ & Hsz2 & _).
  exists addrs, st1, st2. split; [done |].
  rewrite Nat.add_0_l, Hlen1 in Hn2. rewrite Hn2 in Hsz2.
  split; [unfold resume; rewrite Hl1; cbn [mbind option_bind]; do 2 f_equal;
          apply bool_decide_ext; lia |].
  split; [lia |]. split; [done |].
  split; [unfold resume; rewrite Hl2; cbn [mbind option_bind]; do 2 f_equal;
          apply bool_decide_ext; by rewrite Hsz2 |].
  done.
Qed.

(** ** Scenarios *)

(** C1, at [K = 2]: two tasks with one pause each. The first call of
    [resume] resumes both and leaves both live, each stopped after its
    pause. The second call finishes the task in slot 0, moves the last task
    into slot 0 and stops, the index being past the new [m_size]: the moved
    task is not resumed, one task stays live and the answer is false. A
    third call is needed. *)
Theorem two_single_pause_tasks :
  let st0 := submit_all [pauses 1 Tint 1%Z; pauses 1 Tint 2%Z] initial_state in
  (∃ st1, resume st0 = Some (false, st1)
        ∧ m_size st1.1 = 2 ∧ m_coroutines st1.1 = [Some 0; Some 1]
        ∧ (point <$> st1.2 !! 0) = Some (Suspended (co_return_ Tint 1%Z))
        ∧ (point <$> st1.2 !! 1) = Some (Suspended (co_return_ Tint 2%Z))
        ∧ ∃ st2, resume st1 = Some (false, st2)
               ∧ m_size st2.1 = 1 ∧ m_coroutines st2.1 = [Some 1]
               ∧ (point <$> st2.2 !! 0) = Some Finished
               ∧ (point <$> st2.2 !! 1) = Some (Suspended (co_return_ Tint 2%Z))
               ∧ ∃ st3, resume st2 = Some (true, st3) ∧ m_size st3.1 = 0).
Proof.
  vm_compute. eexists. split; [reflexivity |]. repeat (split; [reflexivity |]).
  eexists. split; [reflexivity |]. repeat (split; [reflexivity |]).
  eexists. split; reflexivity.
Qed.

(** C2 as stated fails: with the parent that reads the awaited value, the
    live count is not zero after two calls of [resume]. *)
Lemma two_ticks_leave_parent_live :
  ¬ ∃ st, ticks 2 (submit (awaits_child Tint 42%Z (read_and_return Tint)) initial_state)
          = Some st
        ∧ m_size st.1 = 0.
Proof. vm_compute. intros (st & Heq & Hz). simplify_eq. Qed.

Lemma steps_awaits_child (T : ctype) (v : denote T) (k : Result → coro) :
  (∀ r, ∃ T' w, k r = co_return_ T' w) →
  well_defined (awaits_child T v k) ∧ steps (awaits_child T v k) = 3.
Proof.
  intros Hk. simpl. split.
  - split; [done |]. intros r. destruct (Hk r) as (T' & w & ->). done.
  - destruct (Hk empty_result) as (T' & w & ->). done.
Qed.

(** C2, amended: root A awaits child B and B returns on its first
    resumption. Whatever A does after the await, A is live after each of the
    first two calls of [resume]; when the continuation of A returns, the live
    count is zero after exactly three calls. *)
Theorem parent_retires_on_third_tick (T : ctype) (v : denote T) (k : Result → coro) :
  (∀ n, n ≤ 2 →
        ∃ st, ticks n (submit (awaits_child T v k) initial_state) = Some st
            ∧ m_size st.1 = 1)
  ∧ ((∀ r, ∃ T' w, k r = co_return_ T' w) →
     ∃ st, ticks 3 (submit (awaits_child T v k) initial_state) = Some st
         ∧ m_size st.1 = 0).
Proof.
  split.
  - intros n Hn.
    destruct n as [| [| [| n]]]; [| | | lia];
      (eexists; split; [vm_compute; reflexivity | reflexivity]).
  - intros Hk. destruct (steps_awaits_child T v k Hk) as [Hwd Hst].
    destruct (single_root_exact _ Hwd) as [_ Hzero]. by rewrite Hst in Hzero.
Qed.

Lemma parent_retires_on_third_tick_witness :
  (∀ n, n ≤ 2 →
        ∃ st, ticks n (submit (awaits_child Tint 42%Z (λ _, co_return_ Tbool true))
                              initial_state) = Some st
            ∧ m_size st.1 = 1)
  ∧ (∃ st, ticks 3 (submit (awaits_child Tint 42%Z (λ _, co_return_ Tbool true))
                           initial_state) = Some st
         ∧ m_size st.1 = 0).
Proof.
  split.
  - apply (proj1 (parent_retires_on_third_tick Tint 42%Z (λ _, co_return_ Tbool true))).
  - apply (proj2 (parent_retires_on_third_tick Tint 42%Z (λ _, co_return_ Tbool true))).
    intros r. exists Tbool, true. reflexivity.
Defined.

(** C3, on the scenario of C2 with the parent that reads the value: the
    second call of [resume] runs B, which stores 42, and finalizes B's
    promise at once, while A is still stopped at its await. What
    [await_resume] then hands to A is the empty [Result]; reading it is
    undefined, and so is the third call. *)
Theorem child_finalized_before_parent_reads :
  let A := awaits_child Tint 42%Z (read_and_return Tint) in
  ∃ st1 st2, resume (submit A initial_state) = Some (false, st1)
    ∧ (∃ σB fB, handle_resume (Some 1) st1.2 = Some σB ∧ σB !! 1 = Some fB
              ∧ m_done (promise fB) = 1%Z
              ∧ result Tint (Result_ctor (m_data (promise fB))) = Some 42%Z)
    ∧ resume st1 = Some (false, st2)
    ∧ m_coroutines st2.1 = [Some 0]
    ∧ (point <$> st2.2 !! 0) = Some (Awaiting (MkTask (Some 1)) (read_and_return Tint))
    ∧ (promise <$> st2.2 !! 1)
      = Some {| m_done := 1; m_data := null_shared; m_next := None; m_previous := None |}
    ∧ await_resume (MkTask (Some 1)) st2.2 = Some empty_result
    ∧ result Tint empty_result = None
    ∧ resume st2 = None.
Proof.
  vm_compute. eexists _, _. split; [reflexivity |]. split.
  - eexists _, _. split; [reflexivity |]. split; [reflexivity |]. split; reflexivity.
  - repeat (split; [reflexivity |]). reflexivity.
Qed.

(** C8, on the scenario of C2 with the parent that reads the value: the
    task graph is finite and both bodies run to their [co_return], yet the
    live count is 1 after zero, one and two calls of [resume], every later
    call is undefined (A reads the [Result] emptied with B's promise), and so
    the live count is zero after no number of calls. *)
Theorem reading_parent_never_retires :
  (m_size <$> (fst <$> ticks 0 (submit (awaits_child Tint 42%Z (read_and_return Tint))
                                       initial_state))) = Some 1
  ∧ (m_size <$> (fst <$> ticks 1 (submit (awaits_child Tint 42%Z (read_and_return Tint))
                                         initial_state))) = Some 1
  ∧ (m_size <$> (fst <$> ticks 2 (submit (awaits_child Tint 42%Z (read_and_return Tint))
                                         initial_state))) = Some 1
  ∧ (∀ n, ticks (3 + n) (submit (awaits_child Tint 42%Z (read_and_return Tint))
                                initial_state) = None)
  ∧ (∀ n, (m_size <$> (fst <$> ticks n (submit (awaits_child Tint 42%Z
                                                   (read_and_return Tint))
                                               initial_state))) = Some 1
          ∨ ticks n (submit (awaits_child Tint 42%Z (read_and_return Tint))
                            initial_state) = None).
Proof.
  assert (∀ n, ticks (3 + n) (submit (awaits_child Tint 42%Z (read_and_return Tint))
                                     initial_state) = None) as Hlate.
  { intros n. rewrite ticks_add.
    assert (ticks 3 (submit (awaits_child Tint 42%Z (read_and_return Tint))
                            initial_state) = None) as -> by (vm_compute; reflexivity).
    reflexivity. }
  split; [vm_compute; reflexivity |]. split; [vm_compute; reflexivity |].
  split; [vm_compute; reflexivity |]. split; [exact Hlate |].
  intros n. destruct n as [| [| [| n]]].
  - left. vm_compute. reflexivity.
  - left. vm_compute. reflexivity.
  - left. vm_compute. reflexivity.
  - right. apply (Hlate n).
Qed.

(** * Further properties *)

(** ** What a resumption changes *)

Lemma handle_resume_Some (a : nat) (σ σ' : gmap nat Frame) :
  handle_resume (Some a) σ = Some σ' →
  ∃ f c, σ !! a = Some f ∧ point f ≠ Finished
       ∧ next_body σ f = Some c ∧ run a c σ = Some σ'.
Proof.
  unfold handle_resume, next_body; simpl. intros H.
  destruct (σ !! a) as [f |] eqn:Hf; simpl in H; [| done].
  exists f. destruct (point f) as [c | t k |]; [| | done].
  - exists c. done.
  - destruct (await_resume t σ) as [r |]; simpl in *; [| done].
    exists (k r). done.
Qed.

(** The two shapes of the heap after a frame has run to its next suspension
    point: the frame alone is rewritten, or the frame is rewritten and one
    frame is allocated, for the child of an await. *)
Lemma run_cases (a : nat) (f : Frame) (c : coro) (σ σ' : gmap nat Frame) :
  σ !! a = Some f → run a c σ = Some σ' →
  (∃ fa, σ' = <[a := fa]> σ
       ∧ m_previous (promise fa) = m_previous (promise f)
       ∧ ((m_done (promise fa) = m_done (promise f) ∧ point fa ≠ Finished)
          ∨ (m_done (promise fa) = 1%Z ∧ point fa = Finished)))
  ∨ (∃ fa fb, σ' = <[a := fa]> (<[fresh (dom σ) := fb]> σ)
            ∧ m_previous (promise fa) = m_previous (promise f)
            ∧ m_done (promise fa) = m_done (promise f) ∧ point fa ≠ Finished
            ∧ m_done (promise fb) = 0%Z ∧ point fb ≠ Finished).
Proof.
  intros Hf Hr. destruct c as [k | child k | T v |]; [| | | done].
  - rewrite (run_yield a f) in Hr by done. simplify_eq.
    left. eexists. split; [done |]. simpl. split; [done |]. by left.
  - rewrite (run_await a f) in Hr by done. simplify_eq.
    right. eexists _, _. split; [done |]. simpl. done.
  - rewrite (run_return a f) in Hr by done. simplify_eq.
    left. eexists. split; [done |]. simpl. split; [done |]. by right.
Qed.

Lemma resume_touches_one_frame_aux (a : nat) (σ σ' : gmap nat Frame) :
  handle_resume (Some a) σ = Some σ' → dom σ ⊆ dom σ'.
Proof.
  intros H. apply handle_resume_Some in H as (f & c & Hf & _ & _ & Hr).
  destruct (run_cases a f c σ σ' Hf Hr)
    as [(fa & -> & _) | (fa & fb & -> & _)]; rewrite !dom_insert_L; set_solver.
Qed.

(** X2: [handle.resume()] on the frame at [a] rewrites that frame only: every
    other frame is as before, no frame is released, and at most one frame is
    new, at the address the next coroutine call takes. *)
Theorem resume_touches_one_frame (a : nat) (σ σ' : gmap nat Frame) :
  handle_resume (Some a) σ = Some σ' →
  (∀ x, x ≠ a → is_Some (σ !! x) → σ' !! x = σ !! x)
  ∧ dom σ ⊆ dom σ'
  ∧ (∀ x, x ∈ dom σ' → x ∈ dom σ ∨ x = fresh (dom σ)).
Proof.
  intros H. apply handle_resume_Some in H as (f & c & Hf & _ & _ & Hr).
  assert (a ∈ dom σ) as Ha by (apply elem_of_dom; eauto).
  destruct (run_cases a f c σ σ' Hf Hr)
    as [(fa & -> & _) | (fa & fb & -> & _)].
  - split; [apply agrees_insert |]. rewrite dom_insert_L.
    split; [set_solver |]. intros x Hin. left.
    apply elem_of_union in Hin as [Hin%elem_of_singleton | Hin]; [by subst | done].
  - split; [apply agrees_insert_fresh, fresh_lookup |]. rewrite !dom_insert_L.
    split; [set_solver |]. intros x Hin.
    apply elem_of_union in Hin as [Hin%elem_of_singleton | Hin]; [left; by subst |].
    apply elem_of_union in Hin as [Hin%elem_of_singleton | Hin]; [by right | by left].
Qed.

Lemma resume_touches_one_frame_witness :
  ∃ σ', handle_resume (Some 0) (call (awaits_child Tint 42%Z (read_and_return Tint)) ∅).2
        = Some σ'
      ∧ (∀ x, x ≠ 0 →
              is_Some ((call (awaits_child Tint 42%Z (read_and_return Tint)) ∅).2 !! x) →
              σ' !! x = (call (awaits_child Tint 42%Z (read_and_return Tint)) ∅).2 !! x)
      ∧ dom (call (awaits_child Tint 42%Z (read_and_return Tint)) ∅).2 ⊆ dom σ'
      ∧ (∀ x, x ∈ dom σ' →
              x ∈ dom (call (awaits_child Tint 42%Z (read_and_return Tint)) ∅).2
              ∨ x = fresh (dom (call (awaits_child Tint 42%Z (read_and_return Tint)) ∅).2)).
Proof.
  eexists. split; [vm_compute; reflexivity |].
  apply (resume_touches_one_frame 0). vm_compute. reflexivity.
Defined.

Lemma visit_Some (i : nat) (s : Scheduler) (σ : gmap nat Frame) (st' : state) :
  visit i (s, σ) = Some st' →
  ∃ a σ1 f, m_coroutines s !! i = Some (Some a)
          ∧ handle_resume (Some a) σ = Some σ1 ∧ σ1 !! a = Some f.
Proof.
  unfold visit. intros H.
  destruct (m_coroutines s !! i) as [h |]; simpl in H; [| done].
  destruct (handle_resume h σ) as [σ1 |] eqn:Hr; simpl in H; [| done].
  destruct h as [a |]; simpl in H; [| done].
  destruct (σ1 !! a) as [f |] eqn:Hf; simpl in H; [| done].
  exists a, σ1, f. done.
Qed.

(** The heap after a visit: the heap after the resumption, with the promise
    of the resumed frame possibly finalized. *)
Lemma visit_heap (i : nat) (s : Scheduler) (σ : gmap nat Frame) (st' : state) :
  visit i (s, σ) = Some st' →
  ∃ a σ1 f, m_coroutines s !! i = Some (Some a)
          ∧ handle_resume (Some a) σ = Some σ1 ∧ σ1 !! a = Some f
          ∧ (st'.2 = σ1 ∨ st'.2 = <[a := set_promise f (Promise_dtor (promise f))]> σ1).
Proof.
  intros H. destruct (visit_Some _ _ _ _ H) as (a & σ1 & f & Hi & Hr & Hf).
  exists a, σ1, f. do 3 (split; [done |]).
  rewrite (visit_eq _ _ _ _ _ _ Hi Hr Hf) in H.
  destruct (m_next (promise f)).
  - simpl in H. case_bool_decide; simplify_eq; simpl; auto.
  - destruct (last (m_coroutines s)); simpl in H; simplify_eq. simpl. auto.
Qed.

Lemma visit_dom (i : nat) (st st' : state) :
  visit i st = Some st' → dom st.2 ⊆ dom st'.2.
Proof.
  destruct st as [s σ]. intros H.
  destruct (visit_heap _ _ _ _ H) as (a & σ1 & f & _ & Hr & Hf & Hσ).
  pose proof (resume_touches_one_frame_aux a σ σ1 Hr) as Hd.
  simpl. destruct Hσ as [-> | ->]; [done |]. rewrite dom_insert_L. set_solver.
Qed.

(** ** What a call of [resume] keeps *)

Lemma resume_loop_preserves (P : state → Prop) :
  (∀ i st st', P st → visit i st = Some st' → P st') →
  ∀ fuel i st j st', P st → resume_loop fuel i st = Some (j, st') → P st'.
Proof.
  intros Hstep. induction fuel as [| fuel IH]; intros i st j st' HP H; simpl in H.
  - by simplify_eq.
  - case_bool_decide; [| by simplify_eq].
    destruct (visit i st) as [st1 |] eqn:Hv; simpl in H; [| done].
    eapply IH; [| exact H]. eapply Hstep; eauto.
Qed.

Lemma resume_preserves (P : state → Prop) :
  (∀ i st st', P st → visit i st = Some st' → P st') →
  ∀ st b st', P st → resume st = Some (b, st') → P st'.
Proof.
  intros Hstep st b st' HP H. unfold resume in H.
  destruct (resume_loop (m_size st.1) 0 st) as [[j st1] |] eqn:Hl; simpl in H; [| done].
  simplify_eq. eapply resume_loop_preserves; eauto.
Qed.

Lemma visit_length (i : nat) (st st' : state) :
  m_size st.1 = length (m_coroutines st.1) → visit i st = Some st' →
  m_size st'.1 = length (m_coroutines st'.1).
Proof.
  destruct st as [s σ]. simpl. intros Hsz H.
  destruct (visit_Some _ _ _ _ H) as (a & σ1 & f & Hi & Hr & Hf).
  rewrite (visit_eq _ _ _ _ _ _ Hi Hr Hf) in H.
  destruct (m_next (promise f)).
  - simpl in H. case_bool_decide; simplify_eq; simpl; by rewrite length_insert.
  - destruct (last (m_coroutines s)); simpl in H; simplify_eq. simpl.
    rewrite removelast_firstn_len, length_take, length_insert. lia.
Qed.

(** X3: [m_size] is the length of the vector: [schedule] and [resume] both
    keep the two equal, whatever the handles and the frames are. *)
Theorem size_tracks_vector :
  m_size Scheduler_ctor = length (m_coroutines Scheduler_ctor)
  ∧ (∀ (t : Task) (s : Scheduler),
       m_size s = length (m_coroutines s) →
       m_size (schedule t s).2 = length (m_coroutines (schedule t s).2))
  ∧ (∀ (st : state) (b : bool) (st' : state),
       m_size st.1 = length (m_coroutines st.1) →
       resume st = Some (b, st') →
       m_size st'.1 = length (m_coroutines st'.1)).
Proof.
  split; [done |]. split.
  - intros t s Hsz. simpl. rewrite length_app. simpl. lia.
  - intros st b st' Hsz H.
    apply (resume_preserves (λ st, m_size st.1 = length (m_coroutines st.1)))
      with st b; [| done | done].
    intros i st0 st1 H0 Hv. by eapply visit_length.
Qed.

Lemma size_tracks_vector_witness :
  ∃ st', resume (submit_all [pauses 0 Tint 1%Z; pauses 1 Tint 2%Z; pauses 0 Tint 3%Z]
                            initial_state) = Some (false, st')
       ∧ m_size st'.1 = length (m_coroutines st'.1).
Proof.
  eexists. split; [vm_compute; reflexivity |].
  eapply (proj2 (proj2 size_tracks_vector)
            (submit_all [pauses 0 Tint 1%Z; pauses 1 Tint 2%Z; pauses 0 Tint 3%Z]
                        initial_state)).
  - reflexivity.
  - vm_compute. reflexivity.
Defined.

(** X4: [resume] never releases a frame: every address that holds a frame
    before the call holds one after it, also the frames of tasks that
    finished and left the vector. *)
Theorem resume_releases_no_frame (st : state) (b : bool) (st' : state) :
  resume st = Some (b, st') → dom st.2 ⊆ dom st'.2.
Proof.
  intros H.
  apply (resume_preserves (λ st0, dom st.2 ⊆ dom st0.2)) with st b; [| done | done].
  intros i st0 st1 H0 Hv. apply visit_dom in Hv. set_solver.
Qed.

Lemma resume_releases_no_frame_witness :
  ∃ st', resume (submit (pauses 0 Tint 1%Z) initial_state) = Some (true, st')
       ∧ m_size st'.1 = 0
       ∧ dom (submit (pauses 0 Tint 1%Z) initial_state).2 ⊆ dom st'.2
       ∧ (point <$> st'.2 !! 0) = Some Finished.
Proof.
  eexists. split; [vm_compute; reflexivity |]. split; [reflexivity |]. split.
  - apply (resume_releases_no_frame (submit (pauses 0 Tint 1%Z) initial_state) true).
    vm_compute. reflexivity.
  - vm_compute. reflexivity.
Defined.

Lemma ticks_preserves (P : state → Prop) :
  (∀ i st st', P st → visit i st = Some st' → P st') →
  ∀ n st st', P st → ticks n st = Some st' → P st'.
Proof.
  intros Hstep. induction n as [| n IH]; intros st st' HP H; simpl in H.
  - by simplify_eq.
  - destruct (resume st) as [[b st1] |] eqn:Hr; simpl in H; [| done].
    eapply IH; [| exact H]. eapply resume_preserves; eauto.
Qed.

Lemma submit_all_snoc (cs : list coro) (c : coro) (st : state) :
  submit_all (cs ++ [c]) st = submit c (submit_all cs st).
Proof. unfold submit_all. by rewrite foldl_app. Qed.

Lemma flags_ok_insert (σ : gmap nat Frame) (a : nat) (f : Frame) :
  flags_ok σ → flag_ok f → flags_ok (<[a := f]> σ).
Proof.
  intros Hσ Hf x g Hx. destruct (decide (a = x)) as [-> | Hne].
  - rewrite lookup_insert_eq in Hx. by simplify_eq.
  - rewrite lookup_insert_ne in Hx by done. eauto.
Qed.

Lemma flags_ok_submit (c : coro) (st : state) :
  flags_ok st.2 → flags_ok (submit c st).2.
Proof.
  destruct st as [s σ]. simpl. intros H.
  apply flags_ok_insert; [done |]. right. done.
Qed.

Lemma flags_ok_handle_resume (a : nat) (σ σ' : gmap nat Frame) :
  flags_ok σ → handle_resume (Some a) σ = Some σ' → flags_ok σ'.
Proof.
  intros Hσ H. apply handle_resume_Some in H as (f & c & Hf & Hnf & _ & Hr).
  assert (m_done (promise f) = 0%Z) as Hd.
  { destruct (Hσ a f Hf) as [[_ ?] | [? _]]; done. }
  destruct (run_cases a f c σ σ' Hf Hr)
    as [(fa & -> & _ & Hfa) | (fa & fb & -> & _ & Hda & Hpa & Hdb & Hpb)].
  - apply flags_ok_insert; [done |].
    destruct Hfa as [[Hda Hpa] | [Hda Hpa]]; [right | left]; split; congruence.
  - apply flags_ok_insert; [apply flags_ok_insert; [done |] |].
    + by right.
    + right. split; congruence.
Qed.

Lemma flags_ok_visit (i : nat) (st st' : state) :
  flags_ok st.2 → visit i st = Some st' → flags_ok st'.2.
Proof.
  destruct st as [s σ]. simpl. intros Hσ H.
  destruct (visit_heap _ _ _ _ H) as (a & σ1 & f & _ & Hr & Hf & Hσ').
  pose proof (flags_ok_handle_resume a σ σ1 Hσ Hr) as H1.
  destruct Hσ' as [-> | ->]; [done |].
  apply flags_ok_insert; [done |]. exact (H1 a f Hf).
Qed.

(** X5: in every state reached by submitting tasks and calling [resume],
    [m_done] is 0 or 1 in every frame, and it is 1 exactly in the frames that
    stand at their final suspension; finalizing a promise keeps the flag. *)
Theorem done_flag_tells_finished (cs : list coro) (n : nat) (st : state) :
  ticks n (submit_all cs initial_state) = Some st →
  ∀ a f, st.2 !! a = Some f →
         (m_done (promise f) = 0%Z ∨ m_done (promise f) = 1%Z)
         ∧ (m_done (promise f) = 1%Z ↔ point f = Finished).
Proof.
  intros Ht.
  assert (flags_ok (submit_all cs initial_state).2) as H0.
  { clear. induction cs as [| c cs IH] using rev_ind.
    - intros a f H. simpl in H. by rewrite lookup_empty in H.
    - rewrite submit_all_snoc. by apply flags_ok_submit. }
  pose proof (ticks_preserves (λ st, flags_ok st.2)
                (λ i st0 st1, flags_ok_visit i st0 st1) n _ st H0 Ht) as Hst.
  intros a f Hf. destruct (Hst a f Hf) as [[Hd Hp] | [Hd Hp]]; rewrite Hd.
  - split; [by right |]. done.
  - split; [by left |]. split; [done | by intros ?].
Qed.

Lemma done_flag_tells_finished_witness :
  ∃ st f, ticks 2 (submit_all [awaits_child Tint 42%Z (read_and_return Tint)]
                              initial_state) = Some st
        ∧ st.2 !! 1 = Some f
        ∧ (m_done (promise f) = 0%Z ∨ m_done (promise f) = 1%Z)
        ∧ (m_done (promise f) = 1%Z ↔ point f = Finished).
Proof.
  pose proof (done_flag_tells_finished
                [awaits_child Tint 42%Z (read_and_return Tint)] 2) as H.
  destruct (ticks 2 (submit_all [awaits_child Tint 42%Z (read_and_return Tint)]
                                initial_state)) as [st |] eqn:Ht;
    [| by vm_compute in Ht].
  specialize (H st eq_refl 1).
  vm_compute in Ht. injection Ht as <-.
  eexists _, _. split; [reflexivity |]. split; [vm_compute; reflexivity |].
  apply H. vm_compute. reflexivity.
Defined.

(** ** The shape of the reachable states *)

Lemma visit_keeps_described (i : nat) (st st' : state) :
  (∃ ds, described st ds) → visit i st = Some st' → ∃ ds, described st' ds.
Proof.
  intros [ds Hd] Hv. pose proof Hd as (Hco & _).
  assert (i < length ds) as Hi.
  { destruct st as [s σ]. destruct (visit_Some _ _ _ _ Hv) as (a & _ & _ & Hl & _).
    apply lookup_lt_Some in Hl. simpl in Hco. rewrite Hco, length_fmap in Hl. done. }
  destruct (visit_described i st ds Hd Hi) as (st1 & Hv1 & Hd1).
  rewrite Hv in Hv1. simplify_eq. eauto.
Qed.

Lemma reachable_described (cs : list coro) (n : nat) (st : state) :
  Forall well_defined cs → ticks n (submit_all cs initial_state) = Some st →
  ∃ ds, described st ds.
Proof.
  intros Hwd Ht.
  destruct (submit_all_described cs _ _ described_initial Hwd) as (addrs & _ & Hd).
  eapply (ticks_preserves (λ st, ∃ ds, described st ds)); [| | exact Ht]; [| eauto].
  intros i st0 st1. apply visit_keeps_described.
Qed.

Lemma NoDup_fronts (ds : list slot) :
  NoDup (ds ≫= footprint) → NoDup ((λ d, Some (s_front d)) <$> ds).
Proof.
  induction ds as [| d ds IH]; [constructor |].
  rewrite bind_cons, fmap_cons. intros Hnd.
  apply NoDup_app in Hnd as (_ & Hdis & Hnd).
  apply NoDup_cons. split; [| by apply IH].
  intros Hin. apply list_elem_of_fmap in Hin as (d' & [= Heq] & Hd').
  apply (Hdis (s_front d)).
  - unfold footprint. apply elem_of_cons. by left.
  - apply list_elem_of_bind. exists d'. split; [| done].
    rewrite Heq. unfold footprint. apply elem_of_cons. by left.
Qed.

(** X6: in every state reached from well-defined tasks, the handles in the
    vector are pairwise different and none is null; each names a frame that
    is not finished; and when that frame has a parent link, the parent is a
    different frame waiting at an await of exactly this frame. *)
Theorem slots_hold_distinct_live_frames (cs : list coro) (n : nat) (st : state) :
  Forall well_defined cs →
  ticks n (submit_all cs initial_state) = Some st →
  NoDup (m_coroutines st.1)
  ∧ ∀ h, h ∈ m_coroutines st.1 →
      ∃ a f, h = Some a ∧ st.2 !! a = Some f
           ∧ m_done (promise f) = 0%Z ∧ point f ≠ Finished
           ∧ ∀ p, m_previous (promise f) = Some p →
                  p ≠ a ∧ ∃ fp k, st.2 !! p = Some fp
                                ∧ point fp = Awaiting (MkTask (Some a)) k.
Proof.
  intros Hwd Ht.
  destruct (reachable_described cs n st Hwd Ht) as (ds & Hco & _ & Hall & Hnd).
  rewrite Hco. split; [by apply NoDup_fronts |].
  intros h Hh. apply list_elem_of_fmap in Hh as (d & -> & Hd).
  pose proof Hnd as Hnd'.
  apply list_elem_of_split in Hd as (ds1 & ds2 & ->).
  rewrite Forall_app, Forall_cons in Hall. destruct Hall as (_ & Hok & _).
  rewrite bind_app, bind_cons in Hnd'.
  apply NoDup_app in Hnd' as (_ & _ & Hnd'). apply NoDup_app in Hnd' as (Hfp & _ & _).
  destruct Hok as (prev & Hfr & Hch & _).
  pose proof (frontier_not_finished _ _ _ _ Hfr) as Hnf.
  destruct Hfr as (f & Hf & Hprev & Hdone & _).
  exists (s_front d), f. do 3 (split; [done |]). split; [by apply Hnf |].
  intros p Hp. rewrite Hprev in Hp. subst prev.
  unfold footprint in Hfp. apply NoDup_cons in Hfp as [Hnin _].
  destruct (s_stack d) as [| [q k] stack]; simpl in Hch; [congruence |].
  destruct Hch as (Hq & fp & Hfq & Hpt & _).
  assert (q = p) as -> by congruence.
  split; [| by eauto].
  intros ->. apply Hnin. simpl. apply elem_of_cons. by left.
Qed.

Lemma slots_hold_distinct_live_frames_witness :
  ∃ st, ticks 1 (submit_all [awaits_child Tint 42%Z (λ _, pauses 0 Tbool true);
                             pauses 1 Tint 7%Z] initial_state) = Some st
      ∧ NoDup (m_coroutines st.1)
      ∧ ∀ h, h ∈ m_coroutines st.1 →
          ∃ a f, h = Some a ∧ st.2 !! a = Some f
               ∧ m_done (promise f) = 0%Z ∧ point f ≠ Finished
               ∧ ∀ p, m_previous (promise f) = Some p →
                      p ≠ a ∧ ∃ fp k, st.2 !! p = Some fp
                                    ∧ point fp = Awaiting (MkTask (Some a)) k.
Proof.
  eexists. split; [vm_compute; reflexivity |].
  apply (slots_hold_distinct_live_frames
           [awaits_child Tint 42%Z (λ _, pauses 0 Tbool true); pauses 1 Tint 7%Z] 1).
  - repeat constructor; simpl; auto.
  - vm_compute. reflexivity.
Defined.

(** ** How much one call of [resume] does *)

Lemma visit_size_lower (i : nat) (st st' : state) :
  visit i st = Some st' → m_size st.1 ≤ S (m_size st'.1).
Proof.
  destruct st as [s σ]. intros H.
  destruct (visit_Some _ _ _ _ H) as (a & σ1 & f & Hi & Hr & Hf).
  rewrite (visit_eq _ _ _ _ _ _ Hi Hr Hf) in H.
  destruct (m_next (promise f)).
  - simpl in H. case_bool_decide; simplify_eq; simpl; lia.
  - destruct (last (m_coroutines s)); simpl in H; simplify_eq. simpl. lia.
Qed.

(** The loop from index [i]: it makes [j] iterations, each one resumption
    that was due; it stops with the index at or past [m_size]; each iteration
    removes at most one slot. *)
Lemma resume_loop_count (fuel : nat) :
  ∀ i st M, inv st M → m_size st.1 - i ≤ fuel →
    ∃ j st', resume_loop fuel i st = Some (i + j, st')
           ∧ inv st' (M - j) ∧ j ≤ M
           ∧ m_size st'.1 ≤ i + j
           ∧ m_size st.1 ≤ m_size st'.1 + j
           ∧ (i ≤ m_size st.1 → i + j ≤ m_size st.1)
           ∧ (m_size st.1 ≤ i → j = 0).
Proof.
  induction fuel as [| fuel IH]; intros i st M Hinv Hfuel; cbn [resume_loop].
  - exists 0, st. rewrite Nat.add_0_r, Nat.sub_0_r.
    split; [done |]. split; [done |]. lia.
  - case_bool_decide as Hi.
    + destruct (visit_inv i st M Hinv Hi) as (st1 & Hv & Hinv1 & HM & Hup).
      pose proof (visit_size_lower _ _ _ Hv) as Hlow.
      rewrite Hv. cbn [mbind option_bind].
      destruct (IH (S i) st1 (pred M) Hinv1 ltac:(lia))
        as (j & st' & Hl & Hinv' & Hj & Ha & Hb & Hc & Hd).
      exists (S j), st'.
      replace (i + S j) with (S i + j) by lia.
      replace (M - S j) with (pred M - j) by lia.
      split; [done |]. split; [done |].
      destruct (decide (S i ≤ m_size st1.1)) as [Hle | Hgt].
      * specialize (Hc Hle). lia.
      * specialize (Hd ltac:(lia)). lia.
    + exists 0, st. rewrite Nat.add_0_r, Nat.sub_0_r.
      split; [done |]. split; [done |]. lia.
Qed.

(** X7: from a state reached from well-defined tasks, one call of [resume]
    makes [j] loop iterations, each one resumption that was due (the number
    [M] of outstanding resumptions drops by [j]), with [j] at least half the
    live count (rounded up) and at most the live count; at most [j] slots are
    removed and at most [j] are left, so a call that removes no slot resumes
    every slot. *)
Theorem tick_resumes_at_least_half (cs : list coro) (n : nat) (st : state) :
  Forall well_defined cs →
  ticks n (submit_all cs initial_state) = Some st →
  ∃ j st' M, resume_loop (m_size st.1) 0 st = Some (j, st')
           ∧ resume st = Some (bool_decide (m_size st'.1 = 0), st')
           ∧ j ≤ m_size st.1
           ∧ m_size st.1 ≤ 2 * j
           ∧ m_size st'.1 ≤ j
           ∧ m_size st.1 - j ≤ m_size st'.1
           ∧ inv st M ∧ inv st' (M - j) ∧ j ≤ M.
Proof.
  intros Hwd Ht.
  destruct (reachable_described cs n st Hwd Ht) as (ds & Hd).
  assert (inv st (sum_list_with weight ds)) as Hinv by (by exists ds).
  destruct (resume_loop_count (m_size st.1) 0 st _ Hinv ltac:(lia))
    as (j & st' & Hl & Hinv' & Hj & Ha & Hb & Hc & _).
  simpl in Hl, Ha, Hc. exists j, st', (sum_list_with weight ds).
  split; [done |]. split; [unfold resume; by rewrite Hl |].
  specialize (Hc ltac:(lia)). repeat split; try done; lia.
Qed.

Lemma tick_resumes_at_least_half_witness :
  ∃ st, ticks 1 (submit_all [pauses 1 Tint 1%Z; pauses 1 Tint 2%Z; pauses 1 Tint 3%Z]
                            initial_state) = Some st
      ∧ ∃ j st' M, resume_loop (m_size st.1) 0 st = Some (j, st')
                 ∧ resume st = Some (bool_decide (m_size st'.1 = 0), st')
                 ∧ j ≤ m_size st.1
                 ∧ m_size st.1 ≤ 2 * j
                 ∧ m_size st'.1 ≤ j
                 ∧ m_size st.1 - j ≤ m_size st'.1
                 ∧ inv st M ∧ inv st' (M - j) ∧ j ≤ M.
Proof.
  eexists. split; [vm_compute; reflexivity |].
  apply (tick_resumes_at_least_half
           [pauses 1 Tint 1%Z; pauses 1 Tint 2%Z; pauses 1 Tint 3%Z] 1).
  - repeat constructor.
  - vm_compute. reflexivity.
Defined.

(** X8: a well-defined task that is the only root is live for exactly
    [steps c] calls of [resume]: one call for each pause, each await and each
    [co_return] of the task and of the children it awaits. *)
Theorem single_root_tick_count (c : coro) :
  well_defined c →
  0 < steps c
  ∧ (∀ k, k < steps c →
          ∃ st, ticks k (submit c initial_state) = Some st ∧ m_size st.1 = 1)
  ∧ (∃ st, ticks (steps c) (submit c initial_state) = Some st
         ∧ m_size st.1 = 0 ∧ resume st = Some (true, st)).
Proof.
  intros Hwd. destruct (single_root_exact c Hwd) as [Hlive (st & Ht & Hz)].
  split; [apply steps_pos |]. split; [done |].
  exists st. split; [done |]. split; [done |]. by apply resume_idle.
Qed.

Lemma single_root_tick_count_witness :
  0 < 5
  ∧ (∀ k, k < 5 →
          ∃ st, ticks k (submit (co_yield_ (co_await_ (pauses 1 Tint 1%Z)
                                              (λ _, pauses 0 Tbool true)))
                                initial_state) = Some st
              ∧ m_size st.1 = 1)
  ∧ (∃ st, ticks 5 (submit (co_yield_ (co_await_ (pauses 1 Tint 1%Z)
                                         (λ _, pauses 0 Tbool true)))
                           initial_state) = Some st
         ∧ m_size st.1 = 0 ∧ resume st = Some (true, st)).
Proof.
  apply (single_root_tick_count
           (co_yield_ (co_await_ (pauses 1 Tint 1%Z) (λ _, pauses 0 Tbool true)))).
  simpl. auto.
Defined.

(** ** Handles the scheduler cannot resume *)

(** X9: [schedule] and [resume] check nothing: when the first slot of a
    non-empty scheduler holds a null handle, a handle of a released frame or
    a handle of a finished frame, [resume] is undefined; scheduling a task a
    second time puts a null handle in the vector. *)
Theorem resume_undefined_on_dead_slot :
  (∀ (s : Scheduler) (σ : gmap nat Frame) (h : PromiseHandle),
     0 < m_size s → m_coroutines s !! 0 = Some h →
     (h = None
      ∨ ∃ a, h = Some a
           ∧ (σ !! a = None ∨ ∃ f, σ !! a = Some f ∧ point f = Finished)) →
     resume (s, σ) = None)
  ∧ (∀ (t : Task) (s s' : Scheduler),
       m_coroutines (schedule (schedule t s).1 s').2 = m_coroutines s' ++ [None]).
Proof.
  split; [| done].
  intros s σ h Hsz Hh Hdead. unfold resume. simpl.
  destruct (m_size s) as [| m] eqn:Hm; [lia |]. simpl.
  rewrite Hm. rewrite bool_decide_true by lia.
  assert (visit 0 (s, σ) = None) as ->; [| done].
  unfold visit. rewrite Hh. simpl.
  assert (handle_resume h σ = None) as ->; [| done].
  unfold handle_resume.
  destruct Hdead as [-> | (a & -> & [Ha | (f & Ha & Hp)])]; simpl; [done | |].
  - by rewrite Ha.
  - rewrite Ha. simpl. by rewrite Hp.
Qed.

Lemma resume_undefined_on_dead_slot_witness :
  resume ((schedule (schedule (call (pauses 0 Tint 1%Z) ∅).1 Scheduler_ctor).1
                    Scheduler_ctor).2,
          (call (pauses 0 Tint 1%Z) ∅).2) = None.
Proof.
  apply (proj1 resume_undefined_on_dead_slot _ _ None).
  - simpl. lia.
  - reflexivity.
  - by left.
Defined.

(** ** Submitting *)

(** X10: submitting tasks runs none of them: after the submissions the live
    count is the number of tasks, the handles are pairwise different, slot
    [i] holds the frame of task [i], stopped before the first statement of
    its body with a fresh promise, and the heap holds no other frame. *)
Theorem submitted_tasks_wait_at_start (cs : list coro) :
  m_size (submit_all cs initial_state).1 = length cs
  ∧ length (m_coroutines (submit_all cs initial_state).1) = length cs
  ∧ NoDup (m_coroutines (submit_all cs initial_state).1)
  ∧ (∀ i c, cs !! i = Some c →
        ∃ a, m_coroutines (submit_all cs initial_state).1 !! i = Some (Some a)
           ∧ (submit_all cs initial_state).2 !! a
             = Some (MkFrame Promise_ctor (Suspended c)))
  ∧ (∀ a, is_Some ((submit_all cs initial_state).2 !! a) →
          Some a ∈ m_coroutines (submit_all cs initial_state).1).
Proof.
  induction cs as [| c cs IH] using rev_ind.
  - simpl. split; [done |]. split; [done |]. split; [constructor |].
    split; [intros i c H; by rewrite lookup_nil in H |].
    intros a [f Hf]. by rewrite lookup_empty in Hf.
  - rewrite submit_all_snoc.
    destruct (submit_all cs initial_state) as [s σ] eqn:Hst. simpl in IH.
    destruct IH as (Hsz & Hlen & Hnd & Hfr & Hall).
    pose proof (fresh_lookup σ) as Hb. simpl.
    set (b := fresh (dom σ)) in *.
    rewrite !length_app. simpl.
    split; [lia |]. split; [lia |]. split; [| split].
    + apply NoDup_app. split; [done |]. split; [| apply NoDup_singleton].
      intros h Hh Hhb. apply list_elem_of_singleton in Hhb as ->.
      apply list_elem_of_lookup in Hh as [i Hi].
      destruct (lookup_lt_is_Some_2 cs i) as [c0 Hc0].
      { apply lookup_lt_Some in Hi. lia. }
      destruct (Hfr i c0 Hc0) as (a & Ha & Hfa). congruence.
    + intros i c0 Hi. apply lookup_app_Some in Hi as [Hi | [Hge Hi]].
      * destruct (Hfr i c0 Hi) as (a & Ha & Hfa). exists a.
        split; [by apply lookup_app_l_Some |].
        rewrite lookup_insert_ne; [done |]. intros ->. congruence.
      * apply list_lookup_singleton_Some in Hi as [Hz ->].
        assert (i = length cs) as -> by lia.
        exists b. split; [| by rewrite lookup_insert_eq].
        rewrite lookup_app_r by lia. rewrite Hlen, Nat.sub_diag. done.
    + intros a [f Hf]. apply elem_of_app.
      destruct (decide (b = a)) as [<- | Hne].
      * right. apply list_elem_of_singleton. done.
      * left. rewrite lookup_insert_ne in Hf by done. apply Hall. eauto.
Qed.

(** ** Finalization *)

Lemma run_next (a : nat) (f : Frame) (c : coro) (σ σ' : gmap nat Frame) :
  σ !! a = Some f → run a c σ = Some σ' →
  ∃ fa, σ' !! a = Some fa
      ∧ (m_done (promise fa) = 1%Z ∨ is_Some (m_next (promise fa))).
Proof.
  intros Hf Hr. destruct c as [k | child k | T v |]; [| | | done].
  - rewrite (run_yield a f) in Hr by done. simplify_eq.
    eexists. rewrite lookup_insert_eq. split; [done |]. right. simpl. eauto.
  - rewrite (run_await a f) in Hr by done. simplify_eq.
    eexists. rewrite lookup_insert_eq. split; [done |]. right. simpl. eauto.
  - rewrite (run_return a f) in Hr by done. simplify_eq.
    eexists. rewrite lookup_insert_eq. split; [done |]. by left.
Qed.

(** X11: the loop of [resume] finalizes no promise of an unfinished frame:
    when the frame it resumed has [m_done = 0] afterwards (it paused or
    awaits), the visit keeps the slot, leaves the heap as the resumption left
    it and puts the frame's [m_next] in the slot. *)
Theorem visit_spares_unfinished (i : nat) (s : Scheduler) (σ σ1 : gmap nat Frame)
    (a : nat) (f : Frame) :
  m_coroutines s !! i = Some (Some a) →
  handle_resume (Some a) σ = Some σ1 →
  σ1 !! a = Some f →
  m_done (promise f) = 0%Z →
  ∃ n, m_next (promise f) = Some n
     ∧ visit i (s, σ) = Some (MkScheduler (<[i := Some n]> (m_coroutines s)) (m_size s), σ1).
Proof.
  intros Hi Hr Hf Hd.
  rewrite (visit_eq _ _ _ _ _ _ Hi Hr Hf).
  apply handle_resume_Some in Hr as (f0 & c & Hf0 & _ & _ & Hrun).
  destruct (run_next a f0 c σ σ1 Hf0 Hrun) as (fa & Hfa & Hn).
  simplify_eq. destruct Hn as [Hn | [n Hn]]; [congruence |].
  exists n. split; [done |]. rewrite Hn. simpl.
  rewrite bool_decide_false; [done |]. intros H. by apply H.
Qed.

Lemma visit_spares_unfinished_witness :
  ∃ n σ1, handle_resume (Some 0) (call (pauses 1 Tint 1%Z) ∅).2 = Some σ1
        ∧ (m_next <$> (promise <$> σ1 !! 0)) = Some (Some n)
        ∧ visit 0 (MkScheduler [Some 0] 1, (call (pauses 1 Tint 1%Z) ∅).2)
          = Some (MkScheduler (<[0 := Some n]> [Some 0]) 1, σ1).
Proof.
  destruct (visit_spares_unfinished 0 (MkScheduler [Some 0] 1)
              (call (pauses 1 Tint 1%Z) ∅).2
              (<[0 := MkFrame {| m_done := 0; m_data := null_shared;
                                 m_next := Some 0; m_previous := None |}
                              (Suspended (co_return_ Tint 1%Z))]> ∅)
              0
              (MkFrame {| m_done := 0; m_data := null_shared;
                          m_next := Some 0; m_previous := None |}
                       (Suspended (co_return_ Tint 1%Z))))
    as (n & Hn & Hv).
  - reflexivity.
  - vm_compute. reflexivity.
  - vm_compute. reflexivity.
  - reflexivity.
  - exists n. eexists. split; [vm_compute; reflexivity |].
    split; [| exact Hv]. vm_compute. simpl in Hn. by rewrite Hn.
Defined.
